(** * shuffle_mcq: extraction, shuffling and rendering of MCQ question banks

    A shallow embedding of [shuffle_mcq.py] and the properties of its
    parser, shuffle transform and renderers.

    Conventions of the embedding.
    - A Python [str] is a [string]; its characters are read as the code
      points 0..255, and the character classes of the regular expressions
      and of [str.strip] / [str.splitlines] are the Unicode ones restricted
      to that range.
    - The scan position of [parse_questions] is a cursor: the index [i]
      together with the lines not yet consumed ([lines[i:]]).  [i < n] is
      "the remaining lines are not empty", [lines[i]] is their head and
      [i += 1] drops it.
    - A raised [ParseError] is a value of [outcome]; the text of the
      exception is [message].
    - [random.Random] is an interface ([Random]): the state of the
      generator is threaded through [shuffle_questions].  For the runs of
      [process_file] the generator is an object of a [world], created by
      [random.Random(seed)] and changed in place by [rng.shuffle]. *)

From Stdlib Require Import Ascii.
From stdpp Require Import base list strings gmap pretty.

(** ** Characters and the [str] methods the program uses *)

Definition LF : ascii := "010"%char.
Definition newline : string := String LF EmptyString.

(** [\s] of [re] on [str], and the characters [str.strip] removes
    ([str.isspace]): TAB..CR, FS..US, space, NEL, NBSP. *)
Definition is_space (c : ascii) : bool :=
  match c with
  | "009" | "010" | "011" | "012" | "013"
  | "028" | "029" | "030" | "031" | " " | "133" | "160" => true
  | _ => false
  end%char.

(** [\d] of [re] on [str]: the decimal digits. *)
Definition is_digit (c : ascii) : bool :=
  match c with
  | "0" | "1" | "2" | "3" | "4" | "5" | "6" | "7" | "8" | "9" => true
  | _ => false
  end%char.

(** The line boundaries of [str.splitlines]: LF, VT, FF, CR, FS, GS, RS, NEL. *)
Definition is_linebreak (c : ascii) : bool :=
  match c with
  | "010" | "011" | "012" | "013" | "028" | "029" | "030" | "133" => true
  | _ => false
  end%char.

(** [[A-D]] *)
Definition is_A_to_D (c : ascii) : bool :=
  match c with
  | "A" | "B" | "C" | "D" => true
  | _ => false
  end%char.

(** [str.upper] on one character (the letters a..z; the program applies it
    to a character matched by [[A-D]] under [re.IGNORECASE] only). *)
Definition upper_char (c : ascii) : ascii :=
  let k := nat_of_ascii c in
  if (97 <=? k) && (k <=? 122) then ascii_of_nat (k - 32) else c.

Fixpoint upper (s : string) : string :=
  match s with
  | EmptyString => EmptyString
  | String c r => String (upper_char c) (upper r)
  end.

(** A literal character of a pattern compiled with [re.IGNORECASE]. *)
Definition eqb_nocase (pat c : ascii) : bool :=
  bool_decide (upper_char c = upper_char pat).

(** [s.lstrip()]; also the greedy [\s*] at the head of [s]. *)
Fixpoint lstrip (s : string) : string :=
  match s with
  | EmptyString => EmptyString
  | String c r => if is_space c then lstrip r else s
  end.

(** [s.rstrip()] *)
Fixpoint rstrip (s : string) : string :=
  match s with
  | EmptyString => EmptyString
  | String c r =>
      match rstrip r with
      | EmptyString => if is_space c then EmptyString else String c EmptyString
      | r' => String c r'
      end
  end.

Definition strip (s : string) : string := rstrip (lstrip s).

(** [s.strip()] is the empty string *)
Definition is_blank (s : string) : bool := bool_decide (strip s = EmptyString).

(** [sep.join(l)] *)
Fixpoint join (sep : string) (l : list string) : string :=
  match l with
  | [] => EmptyString
  | [s] => s
  | s :: l' => s +:+ sep +:+ join sep l'
  end.

(** [s.splitlines()]: [cur] is the line being read, [after_cr] records that
    the previous character was a CR, so that CR LF is one boundary. *)
Fixpoint splitlines_go (after_cr : bool) (cur : string) (s : string) : list string :=
  match s with
  | EmptyString => if bool_decide (cur = EmptyString) then [] else [cur]
  | String c r =>
      if after_cr && bool_decide (c = LF) then splitlines_go false cur r
      else if is_linebreak c
           then cur :: splitlines_go (bool_decide (c = "013"%char)) EmptyString r
           else splitlines_go false (cur +:+ String c EmptyString) r
  end.

Definition splitlines (s : string) : list string := splitlines_go false EmptyString s.

(** ** The three patterns

    Each pattern is used through [match], anchored at the start of the line.
    The greedy reading below is the one the backtracking matcher returns:
    [\s*], [\d+] and [\s+] are each followed by something that none of the
    characters they consume can match or help to match, so giving
    characters back never turns a failure into a success. *)

(** The tail [( .* ) $] of a pattern: [.] is any character but LF, and [$]
    is the end of the string or the position before a final LF. *)
Fixpoint dot_star_eol (s : string) : option string :=
  match s with
  | EmptyString => Some EmptyString
  | String c r =>
      if bool_decide (c = LF)
      then match r with EmptyString => Some EmptyString | _ => None end
      else String c <$> dot_star_eol r
  end.

(** [\d*] at the head of [s]: what is left after it. *)
Fixpoint skip_digits (s : string) : string :=
  match s with
  | EmptyString => EmptyString
  | String c r => if is_digit c then skip_digits r else s
  end.

(** [QUESTION_START_RE = ^ \s* (\d+) \. \s* ( .* ) $] (written with
    spaces between its parts); the result is [group(2)]
    (the program never reads [group(1)]). *)
Definition QUESTION_START_RE (line : string) : option string :=
  match lstrip line with
  | String d r =>
      if is_digit d then
        match skip_digits r with
        | String "." r' => dot_star_eol (lstrip r')
        | _ => None
        end
      else None
  | EmptyString => None
  end.

(** [CHOICE_RE = ^ \s* ([A-D]) \. \s+ ( .* ) $]; the result is
    [(group(1), group(2))]. *)
Definition CHOICE_RE (line : string) : option (string * string) :=
  match lstrip line with
  | String l (String "." (String w r)) =>
      if is_A_to_D l && is_space w
      then (λ text, (String l EmptyString, text)) <$> dot_star_eol (lstrip r)
      else None
  | _ => None
  end.

(** [ANSWER_RE = ^ \s* answer \s* : \s* ([A-D]) \s* $] with [re.IGNORECASE]; the
    result is [group(1)], as written in the line. *)
Definition ANSWER_RE (line : string) : option string :=
  match lstrip line with
  | String a (String n (String s (String w (String e (String r rest))))) =>
      if eqb_nocase "a" a && eqb_nocase "n" n && eqb_nocase "s" s
         && eqb_nocase "w" w && eqb_nocase "e" e && eqb_nocase "r" r
      then
        match lstrip rest with
        | String ":" rest' =>
            match lstrip rest' with
            | String l tail =>
                if is_A_to_D (upper_char l) && bool_decide (lstrip tail = EmptyString)
                then Some (String l EmptyString)
                else None
            | EmptyString => None
            end
        | _ => None
        end
      else None
  | _ => None
  end.

(** ** Data model *)

Record Question := {
  stem_lines : list string;
  choices : list (string * string);   (* (orig_letter, choice_text) *)
  answer_letter : string;
  start_line_no : nat
}.

Record ShuffledQuestion := {
  sq_stem_lines : list string;
  shuffled_choices : list string;
  new_answer_letter : string
}.

(** The malformed-block conditions of [parse_questions], in source order,
    with the line numbers their messages mention. *)
Inductive ParseCause :=
| MissingChoicesBeforeNextQuestion
| MissingStemText
| EOFBeforeChoices
| ExpectedChoiceLine (around : nat)
| DuplicateChoiceLetter (letter : string) (at_line : nat)
| IncompleteLetterSet
| MissingAnswerBeforeEOF
| ExpectedAnswerLine (around : nat).

Record ParseError := {
  err_start_line_no : nat;
  err_cause : ParseCause;
  err_snippet : string
}.

Inductive outcome (E A : Type) :=
| Ok (a : A)
| Raise (e : E).
Arguments Ok {E A} a.
Arguments Raise {E A} e.

Definition cause_text (c : ParseCause) : string :=
  match c with
  | MissingChoicesBeforeNextQuestion => "missing choices before next question start."
  | MissingStemText => "missing question stem text before choices."
  | EOFBeforeChoices => "reached EOF before choices."
  | ExpectedChoiceLine k =>
      "expected choice line A-D around line " +:+ pretty k +:+ "."
  | DuplicateChoiceLetter l k =>
      "duplicate choice letter '" +:+ l +:+ "' at line " +:+ pretty k +:+ "."
  | IncompleteLetterSet => "expected exactly one choice each for A, B, C, and D."
  | MissingAnswerBeforeEOF => "missing Answer line before EOF."
  | ExpectedAnswerLine k =>
      "expected 'Answer: <A-D>' around line " +:+ pretty k +:+ "."
  end.

(** The text of the raised [ParseError]. *)
Definition message (e : ParseError) : string :=
  "Malformed question near line " +:+ pretty (err_start_line_no e) +:+ ": "
  +:+ cause_text (err_cause e) +:+ newline
  +:+ "Snippet:" +:+ newline +:+ err_snippet e.

(** [snippet(lines, start, end)] *)
Definition snippet (lines : list string) (start end_ : nat) : string :=
  let lo := max 0 (start - 1) in
  let hi := min (length lines) end_ in
  join newline (take (hi - lo) (drop lo lines)).

(** ** parse_questions *)

Section parse.
Variable lines : list string.
Let n := length lines.

Definition malformed {A} (start_line_no : nat) (c : ParseCause) (end_ : nat)
    : outcome ParseError A :=
  Raise {| err_start_line_no := start_line_no; err_cause := c;
           err_snippet := snippet lines start_line_no end_ |}.

(** Line 79: [while i < n and not stem_lines and] the line is blank,
    entered with an empty [stem_lines] (which the loop does not change). *)
Fixpoint skip_blank (i : nat) (rest : list string) : nat * list string :=
  match rest with
  | [] => (i, rest)
  | l :: rest' => if is_blank l then skip_blank (S i) rest' else (i, rest)
  end.

(** Lines 83-90: the stem, up to the first choice line. *)
Fixpoint collect_stem (start_line_no : nat) (stem : list string)
    (i : nat) (rest : list string)
    : outcome ParseError (list string * nat * list string) :=
  match rest with
  | [] => Ok (stem, i, rest)
  | l :: rest' =>
      match CHOICE_RE l with
      | Some _ => Ok (stem, i, rest)
      | None =>
          match QUESTION_START_RE l with
          | Some _ =>
              malformed start_line_no MissingChoicesBeforeNextQuestion (i + 1)
          | None => collect_stem start_line_no (stem ++ [l]) (S i) rest'
          end
      end
  end.

(** Lines 107-125: the choices. *)
Fixpoint collect_choices (start_line_no : nat)
    (chs : list (string * string)) (seen_letters : gset string)
    (i : nat) (rest : list string)
    : outcome ParseError (list (string * string) * gset string * nat * list string) :=
  match rest with
  | [] => Ok (chs, seen_letters, i, rest)
  | l :: rest' =>
      if length chs <? 4 then
        if is_blank l then collect_choices start_line_no chs seen_letters (S i) rest'
        else
          match CHOICE_RE l with
          | None =>
              malformed start_line_no (ExpectedChoiceLine (i + 1)) (min n (i + 3))
          | Some (letter, text) =>
              if decide (letter ∈ seen_letters)
              then malformed start_line_no
                     (DuplicateChoiceLetter letter (i + 1)) (min n (i + 2))
              else collect_choices start_line_no (chs ++ [(letter, text)])
                     ({[letter]} ∪ seen_letters) (S i) rest'
          end
      else Ok (chs, seen_letters, i, rest)
  end.

Definition ABCD_set : gset string := {["A"; "B"; "C"; "D"]}.

(** Lines 72-157: one block, entered at the line after the start line
    ([start_idx] is the index of the start line, [first_stem] its
    [group(2)]).  The result is the question and the cursor after the
    Answer line. *)
Definition parse_block (start_idx : nat) (first_stem : string)
    (rest : list string) : outcome ParseError (Question * nat * list string) :=
  let start_line_no := start_idx + 1 in
  let stem0 := if bool_decide (first_stem = EmptyString) then [] else [first_stem] in
  let i := start_idx + 1 in
  let '(i, rest) :=
    match stem0 with [] => skip_blank i rest | _ => (i, rest) end in
  match collect_stem start_line_no stem0 i rest with
  | Raise e => Raise e
  | Ok (stem, i, rest) =>
      match stem with
      | [] => malformed start_line_no MissingStemText (min n (i + 2))
      | _ =>
      match rest with
      | [] => malformed start_line_no EOFBeforeChoices (min n (start_idx + 8))
      | _ =>
      match collect_choices start_line_no [] ∅ i rest with
      | Raise e => Raise e
      | Ok (chs, seen_letters, i, rest) =>
          if decide (seen_letters ≠ ABCD_set)
          then malformed start_line_no IncompleteLetterSet (min n (i + 2))
          else
            let '(i, rest) := skip_blank i rest in
            match rest with
            | [] => malformed start_line_no MissingAnswerBeforeEOF
                      (min n (start_idx + 12))
            | l :: rest' =>
                match ANSWER_RE l with
                | None => malformed start_line_no (ExpectedAnswerLine (i + 1))
                            (min n (i + 2))
                | Some letter =>
                    Ok ({| stem_lines := stem; choices := chs;
                           answer_letter := upper letter;
                           start_line_no := start_line_no |},
                        S i, rest')
                end
            end
      end end end
  end.

(** Lines 65-157: the scan.  Every iteration consumes at least one line,
    so [fuel] iterations are enough when [fuel] is the number of lines
    left ([parse_loop_fuel]); [None] is "out of fuel". *)
Fixpoint parse_loop (fuel : nat) (questions : list Question)
    (discarded_lines : nat) (i : nat) (rest : list string)
    : option (outcome ParseError (list Question * nat)) :=
  match rest with
  | [] => Some (Ok (questions, discarded_lines))
  | l :: rest' =>
      match fuel with
      | 0 => None
      | S fuel' =>
          match QUESTION_START_RE l with
          | None => parse_loop fuel' questions (S discarded_lines) (S i) rest'
          | Some first_stem =>
              match parse_block i first_stem rest' with
              | Raise e => Some (Raise e)
              | Ok (q, i', rest'') =>
                  parse_loop fuel' (questions ++ [q]) discarded_lines i' rest''
              end
          end
      end
  end.

Definition parse_questions : option (outcome ParseError (list Question * nat)) :=
  parse_loop n [] 0 0 lines.
End parse.

(** ** The generator and [random.Random.shuffle]

    [random.Random] belongs to the Python standard library.  What the
    program relies on is its interface: a generator built from a seed, and
    [_randbelow(n)], which returns an integer in [range(n)] and advances the
    generator. *)

Class Random := {
  rng_state : Type;
  seed_state : Z → rng_state;
  randbelow : nat → rng_state → nat * rng_state;
  randbelow_lt : ∀ n g, 0 < n → (randbelow n g).1 < n
}.

(** [x[i], x[j] = x[j], x[i]] *)
Definition swap {A} (x : list A) (i j : nat) : list A :=
  match x !! i, x !! j with
  | Some xi, Some xj => <[j:=xi]> (<[i:=xj]> x)
  | _, _ => x
  end.

Section shuffle.
Context {R : Random}.

(** [for i in reversed(range(1, len(x))): j = randbelow(i + 1); swap];
    [k] counts the iterations left, so [i] runs from [k] down to 1. *)
Fixpoint shuffle_loop {A} (k : nat) (x : list A) (g : rng_state)
    : list A * rng_state :=
  match k with
  | 0 => (x, g)
  | S k' =>
      let '(j, g') := randbelow (k + 1) g in
      shuffle_loop k' (swap x k j) g'
  end.

(** [rng.shuffle(x)] *)
Definition shuffle {A} (x : list A) (g : rng_state) : list A * rng_state :=
  shuffle_loop (length x - 1) x g.
End shuffle.

(** ** shuffle_questions *)

(** The exceptions that the lookups of [shuffle_questions] and of the
    renderers can raise. *)
Inductive PyError := StopIteration | IndexError.

(** The characters of the literal ABCD, as the one-character strings that
    indexing it and iterating over it give. *)
Definition ABCD : list string := ["A"; "B"; "C"; "D"].

Section shuffle_questions.
Context {R : Random}.

(** The body of the loop, lines 167-179. *)
Definition shuffle_question (question : Question) (g : rng_state)
    : outcome PyError (ShuffledQuestion * rng_state) :=
  let '(shuffled, g) := shuffle (choices question) g in
  match list_find (λ c, c.1 = answer_letter question) (choices question) with
  | None => Raise StopIteration
  | Some (_, correct_choice) =>
      match list_find (λ c, c = correct_choice) shuffled with
      | None => Raise StopIteration
      | Some (correct_idx, _) =>
          match ABCD !! correct_idx with
          | None => Raise IndexError
          | Some letter =>
              Ok ({| sq_stem_lines := stem_lines question;
                     shuffled_choices := shuffled.*2;
                     new_answer_letter := letter |}, g)
          end
      end
  end.

Fixpoint shuffle_questions (questions : list Question) (g : rng_state)
    : outcome PyError (list ShuffledQuestion * rng_state) :=
  match questions with
  | [] => Ok ([], g)
  | question :: questions' =>
      match shuffle_question question g with
      | Raise e => Raise e
      | Ok (sq, g) =>
          match shuffle_questions questions' g with
          | Raise e => Raise e
          | Ok (sqs, g) => Ok (sq :: sqs, g)
          end
      end
  end.
End shuffle_questions.

(** ** Renderers *)

(** [for letter, text in zip(ABCD, q.shuffled_choices)]: one line each. *)
Definition choice_lines (q : ShuffledQuestion) : list string :=
  zip_with (λ letter text, letter +:+ ". " +:+ text) ABCD (shuffled_choices q).

(** What one iteration of [format_combined] appends to [out];
    [q.stem_lines[0]] raises [IndexError] on an empty stem. *)
Definition combined_block (i : nat) (q : ShuffledQuestion)
    : outcome PyError (list string) :=
  match sq_stem_lines q with
  | [] => Raise IndexError
  | first :: others =>
      Ok ([pretty i +:+ ". " +:+ first] ++ others ++ choice_lines q
          ++ [EmptyString; "Answer: " +:+ new_answer_letter q; EmptyString])
  end.

(** The loop of [format_combined], from the counter [i] of [enumerate]. *)
Fixpoint combined_out (i : nat) (questions : list ShuffledQuestion)
    (out : list string) : outcome PyError (list string) :=
  match questions with
  | [] => Ok out
  | q :: questions' =>
      match combined_block i q with
      | Raise e => Raise e
      | Ok block => combined_out (S i) questions' (out ++ block)
      end
  end.

Definition format_combined (questions : list ShuffledQuestion)
    : outcome PyError string :=
  match combined_out 1 questions [] with
  | Raise e => Raise e
  | Ok out => Ok (join newline out)
  end.

(** What one iteration of [format_questions_only] appends to [out]. *)
Definition questions_block (i : nat) (q : ShuffledQuestion)
    : outcome PyError (list string) :=
  match sq_stem_lines q with
  | [] => Raise IndexError
  | first :: others =>
      Ok ([pretty i +:+ ". " +:+ first] ++ others ++ choice_lines q
          ++ [EmptyString])
  end.

(** The loop of [format_questions_only]. *)
Fixpoint questions_out (i : nat) (questions : list ShuffledQuestion)
    (out : list string) : outcome PyError (list string) :=
  match questions with
  | [] => Ok out
  | q :: questions' =>
      match questions_block i q with
      | Raise e => Raise e
      | Ok block => questions_out (S i) questions' (out ++ block)
      end
  end.

Definition format_questions_only (questions : list ShuffledQuestion)
    : outcome PyError string :=
  match questions_out 1 questions [] with
  | Raise e => Raise e
  | Ok out => Ok (join newline out)
  end.

(** The loop of [format_answers_only]. *)
Fixpoint answers_out (i : nat) (questions : list ShuffledQuestion)
    (out : list string) : list string :=
  match questions with
  | [] => out
  | q :: questions' =>
      answers_out (S i) questions' (out ++ [pretty i +:+ ". " +:+ new_answer_letter q])
  end.

Definition format_answers_only (questions : list ShuffledQuestion) : string :=
  let out := answers_out 1 questions [] in
  join newline out +:+ (match out with [] => EmptyString | _ => newline end).

(** ** The pipeline of [process_file] (combined mode), from the lines read
    to the text written. *)

Inductive RunError :=
| ParseFailed (e : ParseError)
| PyFailed (e : PyError).

Section pipeline.
Context {R : Random}.

(** Lines 234-235 and 254, from a generator [g]. *)
Definition combined_from (lines : list string) (g : rng_state)
    : option (outcome RunError string) :=
  match parse_questions lines with
  | None => None
  | Some (Raise e) => Some (Raise (ParseFailed e))
  | Some (Ok (parsed, discarded)) =>
      match shuffle_questions parsed g with
      | Raise e => Some (Raise (PyFailed e))
      | Ok (shuffled, _) =>
          match format_combined shuffled with
          | Raise e => Some (Raise (PyFailed e))
          | Ok text => Some (Ok text)
          end
      end
  end.

(** [rng = random.Random(seed)], then the above. *)
Definition process_combined (lines : list string) (seed : Z)
    : option (outcome RunError string) :=
  combined_from lines (seed_state seed).

(** Lines 231-235, 245 and 246 (split mode), from a generator [g]: the
    texts of the questions file and of the answers file. *)
Definition split_from (lines : list string) (g : rng_state)
    : option (outcome RunError (string * string)) :=
  match parse_questions lines with
  | None => None
  | Some (Raise e) => Some (Raise (ParseFailed e))
  | Some (Ok (parsed, discarded)) =>
      match shuffle_questions parsed g with
      | Raise e => Some (Raise (PyFailed e))
      | Ok (shuffled, _) =>
          match format_questions_only shuffled with
          | Raise e => Some (Raise (PyFailed e))
          | Ok text => Some (Ok (text, format_answers_only shuffled))
          end
      end
  end.

(** Lines 231-235 and 254, from the text [raw] read from the input file:
    the text written in combined mode. *)
Definition process_text (raw : string) (seed : Z)
    : option (outcome RunError string) :=
  process_combined (splitlines raw) seed.

(** Lines 231-235, 245 and 246, from the text [raw] read from the input
    file: the texts written in split mode. *)
Definition process_split (raw : string) (seed : Z)
    : option (outcome RunError (string * string)) :=
  split_from (splitlines raw) (seed_state seed).
End pipeline.

(** ** The generator as an object

    [rng = random.Random(seed)] creates a generator object, and
    [rng.shuffle] changes the state of that object in place.  A [world] holds
    the generator objects that exist, by address, and what a run can take
    from outside the program: the integers that the operating system gives
    to generators created without a seed ([seed = None]). *)

Section process.
Context {R : Random}.

Record world := {
  objects : gmap nat rng_state;   (* the generator objects, by address *)
  os_entropy : nat → Z;           (* what [Random(None)] is seeded with, call after call *)
  drawn : nat                     (* how many such seeds were taken *)
}.

(** [random.Random(seed)]: a new object; its state comes from the seed, or
    from the operating system when there is none. *)
Definition new_Random (seed : option Z) (w : world) : nat * world :=
  let rng := fresh (dom (objects w)) in
  match seed with
  | Some a =>
      (rng, {| objects := <[rng := seed_state a]> (objects w);
               os_entropy := os_entropy w; drawn := drawn w |})
  | None =>
      (rng, {| objects := <[rng := seed_state (os_entropy w (drawn w))]> (objects w);
               os_entropy := os_entropy w; drawn := S (drawn w) |})
  end.

(** [rng.shuffle(x)]: the shuffle, from the state of the object [rng], which
    is left advanced.  [None]: there is no such object. *)
Definition rng_shuffle {A} (rng : nat) (x : list A) (w : world)
    : option (list A * world) :=
  match objects w !! rng with
  | None => None
  | Some g =>
      let '(x', g') := shuffle x g in
      Some (x', {| objects := <[rng := g']> (objects w);
                   os_entropy := os_entropy w; drawn := drawn w |})
  end.

(** The body of the loop of [shuffle_questions], lines 167-179, on the
    object [rng]; an exception leaves the object as the shuffle advanced
    it. *)
Definition shuffle_question_in (question : Question) (rng : nat) (w : world)
    : option (outcome PyError ShuffledQuestion * world) :=
  match rng_shuffle rng (choices question) w with
  | None => None
  | Some (shuffled, w) =>
      Some (match list_find (λ c, c.1 = answer_letter question) (choices question) with
            | None => Raise StopIteration
            | Some (_, correct_choice) =>
                match list_find (λ c, c = correct_choice) shuffled with
                | None => Raise StopIteration
                | Some (correct_idx, _) =>
                    match ABCD !! correct_idx with
                    | None => Raise IndexError
                    | Some letter =>
                        Ok {| sq_stem_lines := stem_lines question;
                              shuffled_choices := shuffled.*2;
                              new_answer_letter := letter |}
                    end
                end
            end, w)
  end.

(** [shuffle_questions(questions, rng)], lines 162-181. *)
Fixpoint shuffle_questions_in (questions : list Question) (rng : nat) (w : world)
    : option (outcome PyError (list ShuffledQuestion) * world) :=
  match questions with
  | [] => Some (Ok [], w)
  | question :: questions' =>
      match shuffle_question_in question rng w with
      | None => None
      | Some (Raise e, w) => Some (Raise e, w)
      | Some (Ok sq, w) =>
          match shuffle_questions_in questions' rng w with
          | None => None
          | Some (Raise e, w) => Some (Raise e, w)
          | Some (Ok sqs, w) => Some (Ok (sq :: sqs), w)
          end
      end
  end.

(** [process_file] in combined mode, from the lines of the input file
    (line 231) to the text written (line 254): the generator is created
    first (line 233), then the lines are parsed and the questions shuffled
    (lines 234-235).  [None]: the scan ran out of fuel, or there is no
    generator object. *)
Definition process_file (lines : list string) (seed : option Z) (w : world)
    : option (outcome RunError string * world) :=
  let '(rng, w) := new_Random seed w in
  match parse_questions lines with
  | None => None
  | Some (Raise e) => Some (Raise (ParseFailed e), w)
  | Some (Ok (parsed, discarded)) =>
      match shuffle_questions_in parsed rng w with
      | None => None
      | Some (Raise e, w) => Some (Raise (PyFailed e), w)
      | Some (Ok shuffled, w) =>
          match format_combined shuffled with
          | Raise e => Some (Raise (PyFailed e), w)
          | Ok text => Some (Ok text, w)
          end
      end
  end.
End process.

(** A small generator, to run the definitions on: a linear congruential
    state, reduced modulo [n] by [randbelow n]. *)
#[export] Program Instance lcg : Random := {|
  rng_state := N;
  seed_state z := Z.to_N (Z.abs z);
  randbelow n g :=
    (N.to_nat (g `mod` N.of_nat n), (g * 1103515245 + 12345) `mod` 2147483648)%N
|}.
Next Obligation. intros n g Hn; simpl. pose proof (N.mod_lt g (N.of_nat n)). lia. Qed.

(** ** Vocabulary of the properties *)

(** The postcondition of the parser on a question: four choices, one per
    letter of A..D in some order, and an answer letter among A..D. *)
Definition well_formed (q : Question) : Prop :=
  length (choices q) = 4 ∧ (choices q).*1 ≡ₚ ABCD ∧ answer_letter q ∈ ABCD.

(** The text of the choice whose original letter is the answer letter. *)
Definition original_text_of (q : Question) : option string :=
  (λ r, r.2.2) <$> list_find (λ c, c.1 = answer_letter q) (choices q).

(** The index of a letter in the canonical order A=0, B=1, C=2, D=3. *)
Definition index_of (letter : string) : option nat :=
  fst <$> list_find (λ l, l = letter) ABCD.

(** Every character of [s] satisfies [p]. *)
Fixpoint str_forall (p : ascii → bool) (s : string) : bool :=
  match s with
  | EmptyString => true
  | String c r => p c && str_forall p r
  end.

(** [s] holds no line boundary: it is one line for [str.splitlines]. *)
Definition one_line (s : string) : Prop :=
  str_forall (λ c, negb (is_linebreak c)) s = true.

(** [s] ends with a newline. *)
Definition ends_with_newline (s : string) : Prop := ∃ s', s = s' +:+ newline.

(** Every line of [l], each followed by a newline. *)
Fixpoint unlines (l : list string) : string :=
  match l with
  | [] => EmptyString
  | s :: l' => s +:+ newline +:+ unlines l'
  end.

(** The first stem line with its leading whitespace removed. *)
Definition lstrip_first (stem : list string) : list string :=
  match stem with
  | [] => []
  | first :: others => lstrip first :: others
  end.

(** [layout lines i rest blocks d]: from the index [i], the lines [rest]
    are made of [d] lines that start no question and of the validated
    blocks [blocks], in order; a block is a question together with its
    lines, from its start line to its Answer line, as [parse_block]
    consumed them. *)
Inductive layout (lines : list string)
    : nat → list string → list (Question * list string) → nat → Prop :=
| layout_end i : layout lines i [] [] 0
| layout_discarded i l rest blocks d :
    QUESTION_START_RE l = None →
    layout lines (S i) rest blocks d →
    layout lines i (l :: rest) blocks (S d)
| layout_block i l first body ans rest q blocks d :
    QUESTION_START_RE l = Some first →
    is_Some (ANSWER_RE ans) →
    parse_block lines i first (body ++ ans :: rest)
      = Ok (q, i + length (l :: body ++ [ans]), rest) →
    layout lines (i + length (l :: body ++ [ans])) rest blocks d →
    layout lines i (l :: body ++ ans :: rest) ((q, l :: body ++ [ans]) :: blocks) d.

(** The stem of a parsed question: a first line that is not blank, then
    lines that are neither choice lines nor start lines. *)
Definition stem_ok (stem : list string) : Prop :=
  ∃ first others,
    stem = first :: others ∧ is_blank first = false
    ∧ Forall (λ l, CHOICE_RE l = None ∧ QUESTION_START_RE l = None) others.

(** A shuffled question made from a parsed question whose lines were
    lines: its stem is the stem of a parsed question, its four texts are
    lines without leading whitespace, its letter is one of A..D. *)
Definition renderable (sq : ShuffledQuestion) : Prop :=
  stem_ok (sq_stem_lines sq) ∧ Forall one_line (sq_stem_lines sq)
  ∧ length (shuffled_choices sq) = 4
  ∧ Forall (λ text, lstrip text = text ∧ one_line text) (shuffled_choices sq)
  ∧ new_answer_letter sq ∈ ABCD.

(** The lines that [format_combined] writes for one question, without the
    empty line that ends them. *)
Definition block_lines (i : nat) (sq : ShuffledQuestion) : list string :=
  match sq_stem_lines sq with
  | [] => []
  | first :: others =>
      [pretty i +:+ ". " +:+ first] ++ others ++ choice_lines sq
      ++ [EmptyString; "Answer: " +:+ new_answer_letter sq]
  end.

(** The lines of the combined text: the blocks of the questions, numbered
    from [i], with one empty line between two blocks. *)
Fixpoint text_lines (i : nat) (sqs : list ShuffledQuestion) : list string :=
  match sqs with
  | [] => []
  | sq :: sqs' =>
      block_lines i sq
      ++ match sqs' with
         | [] => []
         | _ :: _ => EmptyString :: text_lines (S i) sqs'
         end
  end.

(** The lines of the questions-only text: the blocks without their Answer
    lines, with one empty line between two blocks. *)
Fixpoint questions_lines (i : nat) (sqs : list ShuffledQuestion) : list string :=
  match sqs with
  | [] => []
  | sq :: sqs' =>
      match sq_stem_lines sq with
      | [] => []
      | first :: others => [pretty i +:+ ". " +:+ first] ++ others ++ choice_lines sq
      end
      ++ match sqs' with
         | [] => []
         | _ :: _ => EmptyString :: questions_lines (S i) sqs'
         end
  end.

(** How a question read back from the combined text relates to the
    shuffled question that was written. *)
Definition read_back (sq : ShuffledQuestion) (q : Question) : Prop :=
  stem_lines q = lstrip_first (sq_stem_lines sq)
  ∧ (choices q).*2 = shuffled_choices sq.

(** A question found [k] lines further down: its start line number moved
    by [k]. *)
Definition shift_start_line_no (k : nat) (q : Question) : Question :=
  {| stem_lines := stem_lines q; choices := choices q;
     answer_letter := answer_letter q;
     start_line_no := start_line_no q + k |}.

(** An error raised for the block that starts at line [start]: it names
    that line, and its snippet is cut from that line to a line [end_] that
    is not before it. *)
Definition raised_at (lines : list string) (start : nat) (e : ParseError) : Prop :=
  err_start_line_no e = start
  ∧ ∃ end_, start ≤ end_ ∧ err_snippet e = snippet lines start end_.

(** A question of the examples. *)
Definition sample_question : Question :=
  {| stem_lines := ["Q"];
     choices := [("A", "x"); ("B", "y"); ("C", "z"); ("D", "w")];
     answer_letter := "B";
     start_line_no := 1 |}.

(** A question with two choices only, lettered outside A..D. *)
Definition two_choice_question : Question :=
  {| stem_lines := ["Q"]; choices := [("X", "x"); ("Y", "y")];
     answer_letter := "Y"; start_line_no := 1 |}.

(** A question whose answer letter is the letter of no choice. *)
Definition unanswerable_question : Question :=
  {| stem_lines := ["Q"]; choices := [("A", "x"); ("B", "y")];
     answer_letter := "C"; start_line_no := 1 |}.

(** Inputs of the examples. *)
Definition three_choices : list string :=
  ["1. Q"; "A. x"; "B. y"; "C. z"; "Answer: A"].

Definition two_blocks : list string :=
  ["1. Q"; "A. x"; "B. y"; "C. z"; "D. w"; "Answer: A"; EmptyString;
   "2. R"; "A. x"; "B. y"; "C. z"; "D. w"; "Answer: B"].

Definition indented_stem : list string :=
  ["1."; " Q"; "A. x"; "B. y"; "C. z"; "D. w"; "Answer: A"].

(** * Properties *)

(** ** Strings *)

Lemma append_nil_l s : EmptyString +:+ s = s.
Proof. reflexivity. Qed.

Lemma append_cons c s t : String c s +:+ t = String c (s +:+ t).
Proof. reflexivity. Qed.

Lemma append_nil_r s : s +:+ EmptyString = s.
Proof. induction s as [|c s IH]; [done|]. by rewrite append_cons, IH. Qed.

Lemma append_assoc s t u : (s +:+ t) +:+ u = s +:+ t +:+ u.
Proof. induction s as [|c s IH]; [done|]. by rewrite !append_cons, IH. Qed.

Lemma join_snoc sep l s x :
  join sep ((s :: l) ++ [x]) = join sep (s :: l) +:+ sep +:+ x.
Proof.
  revert s. induction l as [|y l IH]; intros s; [done|].
  change (join sep ((s :: y :: l) ++ [x])) with (s +:+ sep +:+ join sep ((y :: l) ++ [x])).
  rewrite IH. change (join sep (s :: y :: l)) with (s +:+ sep +:+ join sep (y :: l)).
  by rewrite !append_assoc.
Qed.

Lemma join_newline_unlines s l :
  join newline (s :: l) +:+ newline = unlines (s :: l).
Proof.
  revert s. induction l as [|y l IH]; intros s; [done|].
  change (join newline (s :: y :: l)) with (s +:+ newline +:+ join newline (y :: l)).
  rewrite !append_assoc, IH. done.
Qed.

Lemma unlines_app l k : unlines (l ++ k) = unlines l +:+ unlines k.
Proof.
  induction l as [|s l IH]; [done|]. simpl. by rewrite IH, !append_assoc.
Qed.

(** ** Empty input, and the three-choice block *)

(** C7: on zero lines the parser returns no question and no discarded
    line, and the combined rendering of the (empty) shuffled result is the
    empty string. *)
Theorem empty_input {R : Random} (g : rng_state) :
  parse_questions [] = Some (Ok ([], 0))
  ∧ shuffle_questions [] g = Ok ([], g)
  ∧ format_combined [] = Ok EmptyString.
Proof. done. Qed.

(** C5, as the code behaves: on the block with three choices the loop
    that collects choices meets the Answer line first and raises
    "expected choice line A-D around line 5" for the block of line 1. *)
Theorem three_choices_error :
  ∃ e, parse_questions three_choices = Some (Raise e)
       ∧ err_start_line_no e = 1
       ∧ err_cause e = ExpectedChoiceLine 5
       ∧ message e =
           "Malformed question near line 1: expected choice line A-D around line 5."
           +:+ newline +:+ "Snippet:" +:+ newline
           +:+ join newline three_choices.
Proof. eexists. split; [vm_compute; reflexivity|]. by vm_compute. Qed.

(** C5 as stated fails: the error raised on the three-choice block is not
    the incomplete-letter-set one. *)
Lemma three_choices_not_incomplete :
  ¬ ∃ e, parse_questions three_choices = Some (Raise e)
         ∧ err_start_line_no e = 1
         ∧ err_cause e = IncompleteLetterSet.
Proof.
  intros (e & He & _ & Hc). vm_compute in He. injection He as <-. discriminate Hc.
Qed.

(** ** The answers-only rendering *)

Lemma answers_out_spec i qs out :
  answers_out i qs out
  = out ++ imap (λ k q, pretty (i + k) +:+ ". " +:+ new_answer_letter q) qs.
Proof.
  revert i out. induction qs as [|q qs IH]; intros i out; simpl.
  - by rewrite app_nil_r.
  - rewrite IH, <-app_assoc. simpl. f_equal.
    rewrite Nat.add_0_r. f_equal.
    apply imap_ext. intros k x _. simpl. by rewrite Nat.add_succ_r.
Qed.

Lemma unlines_ends_with_newline l : l ≠ [] → ends_with_newline (unlines l).
Proof.
  induction l as [|s l IH]; [done|]. intros _. destruct l as [|t l].
  - exists s. simpl. by rewrite append_nil_r.
  - destruct IH as [s' Hs']; [done|]. exists (s +:+ newline +:+ s').
    change (unlines (s :: t :: l)) with (s +:+ newline +:+ unlines (t :: l)).
    by rewrite Hs', !append_assoc.
Qed.

(** C8: the answers-only text is, for each question in order and numbered
    from 1, the line "n. letter" followed by a newline; so it ends with a
    newline exactly when there is at least one question, and is the empty
    string for no question. *)
Theorem answers_only_lines (questions : list ShuffledQuestion) :
  format_answers_only questions
  = unlines (imap (λ k q, pretty (k + 1) +:+ ". " +:+ new_answer_letter q) questions)
  ∧ (ends_with_newline (format_answers_only questions) ↔ questions ≠ [])
  ∧ format_answers_only [] = EmptyString.
Proof.
  assert (format_answers_only questions
    = unlines (imap (λ k q, pretty (k + 1) +:+ ". " +:+ new_answer_letter q) questions))
    as Heq.
  { unfold format_answers_only. rewrite answers_out_spec. simpl.
    rewrite (imap_ext _ (λ k q, pretty (k + 1) +:+ ". " +:+ new_answer_letter q))
      by (intros k x _; do 2 f_equal; lia).
    destruct questions as [|q qs]; [done|].
    rewrite imap_cons. apply join_newline_unlines. }
  split_and!; [done| |done].
  rewrite Heq. split.
  - intros [s' Hs'] ->. simpl in Hs'. by destruct s'.
  - intros Hne. apply unlines_ends_with_newline.
    destruct questions; [done|]. by rewrite imap_cons.
Qed.

(** ** The shuffle *)

Lemma swap_length {A} (x : list A) i j : length (swap x i j) = length x.
Proof.
  unfold swap. destruct (x !! i), (x !! j); by rewrite ?length_insert.
Qed.

Lemma swap_Permutation {A} (x : list A) i j : swap x i j ≡ₚ x.
Proof.
  unfold swap.
  destruct (x !! i) as [xi|] eqn:Hi; [|done].
  destruct (x !! j) as [xj|] eqn:Hj; [|done].
  apply Permutation_inj. split; [by rewrite !length_insert|].
  exists (λ k, if decide (k = j) then i else if decide (k = i) then j else k).
  split.
  - intros k1 k2. repeat case_decide; congruence.
  - intros k. apply lookup_lt_Some in Hi as Hli, Hj as Hlj.
    destruct (decide (k = j)) as [->|Hkj].
    { rewrite list_lookup_insert_eq by by rewrite length_insert. done. }
    rewrite list_lookup_insert_ne by done.
    destruct (decide (k = i)) as [->|Hki].
    { by rewrite list_lookup_insert_eq. }
    by rewrite list_lookup_insert_ne.
Qed.

Section shuffle_facts.
Context {R : Random}.

Lemma shuffle_loop_Permutation {A} k (x : list A) g :
  (shuffle_loop k x g).1 ≡ₚ x.
Proof.
  revert x g. induction k as [|k IH]; intros x g; [done|].
  cbn [shuffle_loop]. destruct (randbelow _ g) as [j g'].
  etrans; [apply IH|apply swap_Permutation].
Qed.

(** The indices that [shuffle] swaps are in range: the swap never falls
    back on its out-of-range case. *)
Lemma shuffle_loop_in_range {A} k (x : list A) g :
  0 < k → k < length x →
  is_Some (x !! k) ∧ is_Some (x !! (randbelow (k + 1) g).1).
Proof.
  intros Hk Hlt. pose proof (randbelow_lt (k + 1) g ltac:(lia)).
  split; apply lookup_lt_is_Some; lia.
Qed.

Lemma shuffle_Permutation {A} (x : list A) g : (shuffle x g).1 ≡ₚ x.
Proof. apply shuffle_loop_Permutation. Qed.

(** What one well-formed question becomes. *)
Lemma shuffle_question_spec q g :
  well_formed q →
  ∃ i c shuffled g' idx letter,
    list_find (λ c, c.1 = answer_letter q) (choices q) = Some (i, c)
    ∧ shuffle (choices q) g = (shuffled, g')
    ∧ list_find (λ c', c' = c) shuffled = Some (idx, c)
    ∧ ABCD !! idx = Some letter
    ∧ shuffle_question q g
      = Ok ({| sq_stem_lines := stem_lines q;
               shuffled_choices := shuffled.*2;
               new_answer_letter := letter |}, g').
Proof.
  intros (Hlen & Hperm & Hans).
  assert (is_Some (list_find (λ c, c.1 = answer_letter q) (choices q)))
    as [[i c] Hfind].
  { rewrite <-Hperm in Hans. apply list_elem_of_fmap in Hans as (c & Hc & Hin).
    by apply (list_find_elem_of _ _ c). }
  destruct (shuffle (choices q) g) as [shuffled g'] eqn:Hsh.
  assert (shuffled ≡ₚ choices q) as Hsp.
  { pose proof (shuffle_Permutation (choices q) g) as Hp. by rewrite Hsh in Hp. }
  apply list_find_Some in Hfind as Hf. destruct Hf as (Hi & Hc & _).
  assert (is_Some (list_find (λ c', c' = c) shuffled)) as [[idx c'] Hfind'].
  { apply (list_find_elem_of _ _ c); [|done].
    rewrite Hsp. by eapply list_elem_of_lookup_2. }
  apply list_find_Some in Hfind' as Hf'. destruct Hf' as (Hidx & -> & _).
  assert (is_Some (ABCD !! idx)) as [letter Hletter].
  { apply lookup_lt_is_Some. apply lookup_lt_Some in Hidx.
    rewrite Hsp, Hlen in Hidx. done. }
  exists i, c, shuffled, g', idx, letter. split_and!; [done..|].
  unfold shuffle_question. by rewrite Hsh, Hfind, Hfind', Hletter.
Qed.

(** What [shuffle_questions] makes of well-formed questions. *)
Lemma shuffle_questions_spec questions g :
  Forall well_formed questions →
  ∃ shuffled g',
    shuffle_questions questions g = Ok (shuffled, g')
    ∧ Forall2 (λ q sq,
        sq_stem_lines sq = stem_lines q
        ∧ shuffled_choices sq ≡ₚ (choices q).*2
        ∧ new_answer_letter sq ∈ ABCD) questions shuffled.
Proof.
  intros Hwf. revert g. induction Hwf as [|q qs Hq _ IH]; intros g.
  { by exists [], g. }
  destruct (shuffle_question_spec q g Hq)
    as (i & c & sh & g1 & idx & letter & _ & Hsh & _ & Hl & Hres).
  destruct (IH g1) as (sqs & g2 & Hrest & Hall).
  eexists (_ :: sqs), g2. split; [simpl; by rewrite Hres, Hrest|].
  constructor; [|done]. simpl. split_and!; [done| |by eapply list_elem_of_lookup_2].
  pose proof (shuffle_Permutation (choices q) g) as Hp. rewrite Hsh in Hp.
  simpl in Hp. by rewrite Hp.
Qed.

Lemma index_of_ABCD idx letter : ABCD !! idx = Some letter → index_of letter = Some idx.
Proof.
  intros Hl. do 4 (destruct idx as [|idx]; [by inversion Hl|]). done.
Qed.

(** C1: every well-formed question (four choices lettered A, B, C, D in
    some order, answer letter among them) is shuffled without error, and
    the text found at the canonical index of the new answer letter is the
    text of the choice that carried the answer letter. *)
Theorem shuffle_keeps_correct_text (questions : list Question) (g : rng_state) :
  Forall well_formed questions →
  ∃ shuffled g',
    shuffle_questions questions g = Ok (shuffled, g')
    ∧ Forall2 (λ q sq, ∃ text idx,
          original_text_of q = Some text
          ∧ index_of (new_answer_letter sq) = Some idx
          ∧ shuffled_choices sq !! idx = Some text) questions shuffled.
Proof.
  intros Hwf. revert g. induction Hwf as [|q qs Hq _ IH]; intros g.
  { by exists [], g. }
  destruct (shuffle_question_spec q g Hq)
    as (i & c & sh & g1 & idx & letter & Hf & Hsh & Hf' & Hl & Hres).
  destruct (IH g1) as (sqs & g2 & Hrest & Hall).
  eexists (_ :: sqs), g2. split; [simpl; by rewrite Hres, Hrest|].
  constructor; [|done]. exists c.2, idx. simpl. split_and!.
  - unfold original_text_of. by rewrite Hf.
  - by apply index_of_ABCD.
  - apply list_find_Some in Hf' as (Hidx & _). by rewrite list_lookup_fmap, Hidx.
Qed.

(** C6: on questions that satisfy the postcondition of the parser,
    [shuffle_questions] returns (one shuffled question per question); the
    lookup of the choice carrying the answer letter succeeds, and so does
    the lookup of that choice in any reordering of the choices. *)
Theorem shuffle_questions_total (questions : list Question) (g : rng_state) :
  Forall well_formed questions →
  (∃ shuffled g',
     shuffle_questions questions g = Ok (shuffled, g')
     ∧ length shuffled = length questions)
  ∧ Forall (λ q, ∃ i c,
       list_find (λ c, c.1 = answer_letter q) (choices q) = Some (i, c)
       ∧ ∀ reordered, reordered ≡ₚ choices q →
           is_Some (list_find (λ c', c' = c) reordered)) questions.
Proof.
  intros Hwf. split.
  - revert g. induction Hwf as [|q qs Hq _ IH]; intros g.
    { by exists [], g. }
    destruct (shuffle_question_spec q g Hq)
      as (i & c & sh & g1 & idx & letter & _ & _ & _ & _ & Hres).
    destruct (IH g1) as (sqs & g2 & Hrest & Hlen).
    eexists (_ :: sqs), g2. split; [simpl; by rewrite Hres, Hrest|].
    simpl. by rewrite Hlen.
  - eapply Forall_impl; [exact Hwf|]. intros q Hq.
    destruct (shuffle_question_spec q g Hq)
      as (i & c & _ & _ & _ & _ & Hf & _).
    exists i, c. split; [done|]. intros reordered Hperm.
    apply (list_find_elem_of _ _ c); [|done].
    rewrite Hperm. apply list_find_Some in Hf as (Hi & _).
    by eapply list_elem_of_lookup_2.
Qed.
End shuffle_facts.

Lemma sample_question_well_formed : Forall well_formed [sample_question].
Proof.
  constructor; [|constructor]. split_and!; [done|done|].
  apply list_elem_of_In. simpl. auto.
Qed.

Lemma shuffle_keeps_correct_text_witness :
  ∃ shuffled g',
    shuffle_questions (R := lcg) [sample_question] 42%N = Ok (shuffled, g')
    ∧ Forall2 (λ q sq, ∃ text idx,
          original_text_of q = Some text
          ∧ index_of (new_answer_letter sq) = Some idx
          ∧ shuffled_choices sq !! idx = Some text) [sample_question] shuffled.
Proof.
  apply (shuffle_keeps_correct_text (R := lcg) [sample_question] 42%N).
  apply sample_question_well_formed.
Defined.

Lemma shuffle_questions_total_witness :
  (∃ shuffled g',
     shuffle_questions (R := lcg) [sample_question] 7%N = Ok (shuffled, g')
     ∧ length shuffled = length [sample_question])
  ∧ Forall (λ q, ∃ i c,
       list_find (λ c, c.1 = answer_letter q) (choices q) = Some (i, c)
       ∧ ∀ reordered, reordered ≡ₚ choices q →
           is_Some (list_find (λ c', c' = c) reordered)) [sample_question].
Proof.
  apply (shuffle_questions_total (R := lcg) [sample_question] 7%N).
  apply sample_question_well_formed.
Defined.

(** ** Whitespace, lines and the patterns *)

Lemma lstrip_head s c r : lstrip s = String c r → is_space c = false.
Proof.
  induction s as [|d s IH]; simpl; [done|].
  destruct (is_space d) eqn:Hd; [done|]. by intros [= <- _].
Qed.

Lemma lstrip_fixed c r : is_space c = false → lstrip (String c r) = String c r.
Proof. intros Hc. simpl. by rewrite Hc. Qed.

Lemma lstrip_idem s : lstrip (lstrip s) = lstrip s.
Proof.
  destruct (lstrip s) as [|c r] eqn:Hs; [done|].
  apply lstrip_fixed. by eapply lstrip_head.
Qed.

Lemma rstrip_nonempty c r : is_space c = false → rstrip (String c r) ≠ EmptyString.
Proof. intros Hc. simpl. destruct (rstrip r); by rewrite ?Hc. Qed.

Lemma is_blank_lstrip s : is_blank s = true ↔ lstrip s = EmptyString.
Proof.
  unfold is_blank, strip. rewrite bool_decide_eq_true.
  destruct (lstrip s) as [|c r] eqn:Hs; [done|].
  split; [|done]. intros Hr. exfalso.
  eapply rstrip_nonempty; [|exact Hr]. by eapply lstrip_head.
Qed.

Lemma is_blank_false s : is_blank s = false ↔ lstrip s ≠ EmptyString.
Proof. rewrite <-is_blank_lstrip. by destruct (is_blank s). Qed.

Lemma is_blank_nonspace c r : is_space c = false → is_blank (String c r) = false.
Proof. intros Hc. apply is_blank_false. by rewrite lstrip_fixed. Qed.

Lemma str_forall_app p s t :
  str_forall p (s +:+ t) = str_forall p s && str_forall p t.
Proof.
  induction s as [|c s IH]; [done|].
  rewrite append_cons. simpl. by rewrite IH, andb_assoc.
Qed.

Lemma one_line_app s t : one_line (s +:+ t) ↔ one_line s ∧ one_line t.
Proof. unfold one_line. rewrite str_forall_app. apply andb_true_iff. Qed.

Lemma one_line_cons c s :
  one_line (String c s) ↔ is_linebreak c = false ∧ one_line s.
Proof.
  unfold one_line. simpl. rewrite andb_true_iff, negb_true_iff. done.
Qed.

Lemma one_line_lstrip s : one_line s → one_line (lstrip s).
Proof.
  induction s as [|c s IH]; [done|]. intros Hs. simpl.
  destruct (is_space c); [|done]. apply IH. by apply one_line_cons in Hs as [_ ?].
Qed.

Lemma one_line_skip_digits s : one_line s → one_line (skip_digits s).
Proof.
  induction s as [|c s IH]; [done|]. intros Hs. simpl.
  destruct (is_digit c); [|done]. apply IH. by apply one_line_cons in Hs as [_ ?].
Qed.

(** On one line, the tail of a pattern takes everything. *)
Lemma dot_star_eol_one_line s : one_line s → dot_star_eol s = Some s.
Proof.
  induction s as [|c s IH]; [done|]. intros [Hc Hs]%one_line_cons. simpl.
  rewrite bool_decide_eq_false_2; [by rewrite IH|].
  intros ->. done.
Qed.

(** What the tail of a pattern captures starts as the text it reads. *)
Lemma dot_star_eol_head s c t :
  dot_star_eol s = Some (String c t) → ∃ r, s = String c r.
Proof.
  destruct s as [|d r]; simpl; [done|].
  case_bool_decide; [by destruct r|].
  destruct (dot_star_eol r); simpl; [|done]. intros [= <- _]. by exists r.
Qed.

Lemma dot_star_eol_keeps_one_line s t :
  one_line s → dot_star_eol s = Some t → one_line t.
Proof. intros Hs. rewrite dot_star_eol_one_line by done. by intros [= <-]. Qed.

(** The captured tail never begins with whitespace when what it reads
    does not. *)
Lemma dot_star_eol_lstrip s t :
  dot_star_eol (lstrip s) = Some t → lstrip t = t.
Proof.
  destruct t as [|c t]; [done|]. intros [r Hr]%dot_star_eol_head.
  apply lstrip_fixed. by eapply lstrip_head.
Qed.

Lemma QUESTION_START_RE_lstrip l s : QUESTION_START_RE l = Some s → lstrip s = s.
Proof.
  unfold QUESTION_START_RE. destruct (lstrip l) as [|d r]; [done|].
  destruct (is_digit d); [|done].
  destruct (skip_digits r) as [|p r']; [done|].
  destruct (decide (p = "."%char)) as [->|Hp].
  - apply dot_star_eol_lstrip.
  - by destruct p as [[] [] [] [] [] [] [] []].
Qed.

Lemma QUESTION_START_RE_one_line l s :
  one_line l → QUESTION_START_RE l = Some s → one_line s.
Proof.
  unfold QUESTION_START_RE. intros Hl%one_line_lstrip.
  destruct (lstrip l) as [|d r]; [done|].
  apply one_line_cons in Hl as [_ Hr%one_line_skip_digits].
  destruct (is_digit d); [|done].
  destruct (skip_digits r) as [|p r']; [done|].
  apply one_line_cons in Hr as [_ Hr'%one_line_lstrip].
  destruct (decide (p = "."%char)) as [->|Hp].
  - by apply dot_star_eol_keeps_one_line.
  - by destruct p as [[] [] [] [] [] [] [] []].
Qed.

(** A nonempty first stem taken from the start line is not blank. *)
Lemma QUESTION_START_RE_not_blank l s :
  QUESTION_START_RE l = Some s → s ≠ EmptyString → is_blank s = false.
Proof.
  intros Hl%QUESTION_START_RE_lstrip Hs. apply is_blank_false. by rewrite Hl.
Qed.

Lemma blank_not_question_start l : is_blank l = true → QUESTION_START_RE l = None.
Proof.
  intros Hl%is_blank_lstrip. unfold QUESTION_START_RE. by rewrite Hl.
Qed.

Lemma blank_not_choice l : is_blank l = true → CHOICE_RE l = None.
Proof. intros Hl%is_blank_lstrip. unfold CHOICE_RE. by rewrite Hl. Qed.

Lemma is_A_to_D_ABCD c : is_A_to_D c = true → String c EmptyString ∈ ABCD.
Proof.
  destruct c as [[] [] [] [] [] [] [] []]; try done; intros _; unfold ABCD;
    set_solver.
Qed.

(** What a choice line gives: a letter of A..D and a text that is the end
    of the line, without leading whitespace. *)
Lemma CHOICE_RE_Some l letter text :
  CHOICE_RE l = Some (letter, text) →
  letter ∈ ABCD ∧ lstrip text = text ∧ (one_line l → one_line text).
Proof.
  unfold CHOICE_RE.
  destruct (lstrip l) as [|c [|p s]] eqn:Hl; try done.
  destruct (decide (p = "."%char)) as [->|Hp];
    [|by destruct p as [[] [] [] [] [] [] [] []], s].
  destruct s as [|w r]; [done|].
  destruct (is_A_to_D c) eqn:Hc; [|done].
  destruct (is_space w); [|done]. simpl.
  destruct (dot_star_eol (lstrip r)) as [t|] eqn:Ht; [|done].
  intros [= <- <-]. split_and!.
  - by apply is_A_to_D_ABCD.
  - by eapply dot_star_eol_lstrip.
  - intros Hone%one_line_lstrip. rewrite Hl in Hone.
    apply one_line_cons in Hone as [_ Hone].
    apply one_line_cons in Hone as [_ Hone].
    apply one_line_cons in Hone as [_ Hone%one_line_lstrip].
    by eapply dot_star_eol_keeps_one_line.
Qed.

(** ** The loops of the parser *)

Lemma skip_blank_spec i rest i' rest' :
  skip_blank i rest = (i', rest') →
  ∃ blanks,
    rest = blanks ++ rest' ∧ i' = i + length blanks
    ∧ Forall (λ l, is_blank l = true) blanks
    ∧ match rest' with [] => True | l :: _ => is_blank l = false end.
Proof.
  revert i. induction rest as [|l rest IH]; intros i; simpl.
  - intros [= <- <-]. exists []. by rewrite Nat.add_0_r.
  - destruct (is_blank l) eqn:Hl.
    + intros (blanks & -> & -> & Hb & Hr)%IH. exists (l :: blanks).
      split_and!; [done|simpl; lia|by constructor|done].
    + intros [= <- <-]. exists []. by rewrite Nat.add_0_r.
Qed.

Lemma collect_stem_spec lines start stem i rest stem' i' rest' :
  collect_stem lines start stem i rest = Ok (stem', i', rest') →
  ∃ more,
    stem' = stem ++ more ∧ rest = more ++ rest' ∧ i' = i + length more
    ∧ Forall (λ l, CHOICE_RE l = None ∧ QUESTION_START_RE l = None) more
    ∧ match rest' with [] => True | l :: _ => is_Some (CHOICE_RE l) end.
Proof.
  revert stem i. induction rest as [|l rest IH]; intros stem i; simpl.
  - intros [= <- <- <-]. exists []. by rewrite app_nil_r, Nat.add_0_r.
  - destruct (CHOICE_RE l) as [c|] eqn:Hc.
    + intros [= <- <- <-]. exists []. rewrite app_nil_r, Nat.add_0_r, Hc. eauto.
    + destruct (QUESTION_START_RE l) eqn:Hq; [done|].
      intros (more & -> & -> & -> & Hm & Hr)%IH. exists (l :: more).
      split_and!; [by rewrite <-app_assoc|done|simpl; lia|by constructor|done].
Qed.

Lemma collect_stem_raise lines start stem i rest e :
  collect_stem lines start stem i rest = Raise e →
  err_cause e = MissingChoicesBeforeNextQuestion.
Proof.
  revert stem i. induction rest as [|l rest IH]; intros stem i; simpl; [done|].
  destruct (CHOICE_RE l); [done|].
  destruct (QUESTION_START_RE l); [by intros [= <-]|apply IH].
Qed.

(** What holds of the choices collected so far, at every iteration. *)
Definition choices_inv (chs : list (string * string)) (seen_letters : gset string) : Prop :=
  seen_letters = list_to_set chs.*1 ∧ NoDup chs.*1 ∧ Forall (.∈ ABCD) chs.*1
  ∧ length chs ≤ 4.

Lemma choices_inv_nil : choices_inv [] ∅.
Proof. split_and!; [done|constructor|constructor|simpl; lia]. Qed.

Lemma ABCD_set_list : ABCD_set = list_to_set ABCD.
Proof. unfold ABCD_set, ABCD. simpl. set_solver. Qed.

(** Four distinct letters among A..D are all of them. *)
Lemma choices_inv_full chs seen_letters :
  choices_inv chs seen_letters → length chs = 4 →
  chs.*1 ≡ₚ ABCD ∧ seen_letters = ABCD_set.
Proof.
  intros (-> & Hnd & Hin & _) Hlen.
  assert (chs.*1 ≡ₚ ABCD) as Hperm.
  { apply submseteq_length_Permutation.
    - apply NoDup_submseteq; [done|]. by apply Forall_forall.
    - by rewrite length_fmap, Hlen. }
  split; [done|]. rewrite ABCD_set_list. by apply list_to_set_perm_L.
Qed.

Lemma collect_choices_spec lines start chs seen_letters i rest chs' seen' i' rest' :
  choices_inv chs seen_letters →
  collect_choices lines start chs seen_letters i rest = Ok (chs', seen', i', rest') →
  choices_inv chs' seen'
  ∧ (rest' = [] ∨ length chs' = 4)
  ∧ ∃ new used,
      chs' = chs ++ new ∧ rest = used ++ rest' ∧ i' = i + length used
      ∧ Forall (λ c, ∃ l, l ∈ used ∧ CHOICE_RE l = Some c) new.
Proof.
  revert chs seen_letters i.
  induction rest as [|l rest IH]; intros chs seen_letters i Hinv; simpl.
  - intros [= <- <- <- <-]. split_and!; [done|by left|].
    exists [], []. by rewrite app_nil_r, Nat.add_0_r.
  - destruct (length chs <? 4) eqn:Hlt.
    2:{ intros [= <- <- <- <-]. apply Nat.ltb_ge in Hlt.
        destruct Hinv as (? & ? & ? & ?). split_and!; [done|right; lia|].
        exists [], []. by rewrite app_nil_r, Nat.add_0_r. }
    apply Nat.ltb_lt in Hlt.
    destruct (is_blank l) eqn:Hb.
    { intros (Hinv' & Hex & new & used & -> & -> & -> & Hnew)%IH; [|done].
      split_and!; [done..|]. exists new, (l :: used).
      split_and!; [done|done|simpl; lia|].
      eapply Forall_impl; [exact Hnew|]. intros c (l' & ? & ?).
      exists l'. split; [by right|done]. }
    destruct (CHOICE_RE l) as [[letter text]|] eqn:Hc; [|done].
    destruct (decide (letter ∈ seen_letters)) as [|Hfresh]; [done|].
    apply CHOICE_RE_Some in Hc as Hl. destruct Hl as (Hletter & _).
    intros (Hinv' & Hex & new & used & -> & -> & -> & Hnew)%IH.
    + split_and!; [done..|]. exists ((letter, text) :: new), (l :: used).
      split_and!; [by rewrite <-app_assoc|done|simpl; lia|].
      constructor.
      * exists l. split; [by left|done].
      * eapply Forall_impl; [exact Hnew|]. intros c (l' & ? & ?).
        exists l'. split; [by right|done].
    + destruct Hinv as (-> & Hnd & Hin & Hlen).
      unfold choices_inv. rewrite fmap_app. simpl. split_and!.
      * rewrite list_to_set_app_L. simpl.
        by rewrite (right_id_L ∅ (∪)), (comm_L (∪)).
      * apply NoDup_app. split_and!; [done| |apply NoDup_singleton].
        intros x Hx ->%list_elem_of_singleton. apply Hfresh.
        by apply elem_of_list_to_set.
      * apply Forall_app. split; [done|]. by constructor.
      * rewrite length_app. simpl. lia.
Qed.

Lemma collect_choices_raise lines start chs seen_letters i rest e :
  collect_choices lines start chs seen_letters i rest = Raise e →
  err_cause e ≠ IncompleteLetterSet.
Proof.
  revert chs seen_letters i.
  induction rest as [|l rest IH]; intros chs seen_letters i; simpl; [done|].
  destruct (length chs <? 4); [|done].
  destruct (is_blank l); [apply IH|].
  destruct (CHOICE_RE l) as [[letter text]|]; [|by intros [= <-]].
  destruct (decide (letter ∈ seen_letters)); [by intros [= <-]|apply IH].
Qed.

Lemma ANSWER_RE_Some l letter : ANSWER_RE l = Some letter → upper letter ∈ ABCD.
Proof.
  unfold ANSWER_RE.
  destruct (lstrip l) as [|a [|n [|s [|w [|e [|r rest]]]]]]; try done.
  destruct (_ && _); [|done].
  destruct (lstrip rest) as [|p rest']; [done|].
  destruct (decide (p = ":"%char)) as [->|Hp];
    [|by destruct p as [[] [] [] [] [] [] [] []]].
  destruct (lstrip rest') as [|c tail]; [done|].
  destruct (is_A_to_D (upper_char c)) eqn:Hc; [|done].
  destruct (bool_decide _); [|done].
  intros [= <-]. simpl. by apply is_A_to_D_ABCD.
Qed.

(** The shape of a validated block: after the start line come the blank
    lines skipped before the stem, the stem lines, the lines of the
    choices (with blank lines among them), blank lines, and the Answer
    line. *)
Lemma parse_block_spec lines start_idx first_stem rest q i' rest' :
  parse_block lines start_idx first_stem rest = Ok (q, i', rest') →
  ∃ blanks more used blanks2 ans letter,
    rest = blanks ++ more ++ used ++ blanks2 ++ ans :: rest'
    ∧ i' = start_idx + 1 + length (blanks ++ more ++ used ++ blanks2) + 1
    ∧ stem_lines q
      = (if bool_decide (first_stem = EmptyString) then [] else [first_stem]) ++ more
    ∧ stem_lines q ≠ []
    ∧ (first_stem = EmptyString →
         ∃ l more', more = l :: more' ∧ is_blank l = false)
    ∧ Forall (λ l, CHOICE_RE l = None ∧ QUESTION_START_RE l = None) more
    ∧ (choices q).*1 ≡ₚ ABCD
    ∧ Forall (λ c, ∃ l, l ∈ used ∧ CHOICE_RE l = Some c) (choices q)
    ∧ ANSWER_RE ans = Some letter
    ∧ answer_letter q = upper letter
    ∧ start_line_no q = start_idx + 1.
Proof.
  unfold parse_block.
  set (stem0 := if bool_decide (first_stem = EmptyString) then [] else [first_stem]).
  destruct (match stem0 with
            | [] => skip_blank (start_idx + 1) rest
            | _ :: _ => (start_idx + 1, rest)
            end) as [i1 rest1] eqn:Hskip.
  assert (∃ blanks, rest = blanks ++ rest1 ∧ i1 = start_idx + 1 + length blanks
            ∧ (stem0 = [] → match rest1 with
                            | [] => True | l :: _ => is_blank l = false end))
    as (blanks & -> & -> & Hhead).
  { destruct stem0 eqn:Hs0.
    - apply skip_blank_spec in Hskip as (blanks & ? & ? & _ & ?). by exists blanks.
    - injection Hskip as <- <-. exists []. by rewrite Nat.add_0_r. }
  clear Hskip.
  destruct (collect_stem _ _ _ _ _) as [[[stem i2] rest2]|] eqn:Hstem; [|done].
  apply collect_stem_spec in Hstem as (more & -> & -> & -> & Hmore & _).
  destruct (stem0 ++ more) as [|s0 stem] eqn:Hstem0; [done|].
  destruct rest2 as [|l2 rest2]; [done|].
  destruct (collect_choices _ _ _ _ _ _) as [[[[chs seen] i3] rest3]|] eqn:Hch;
    [|done].
  apply collect_choices_spec in Hch
    as (Hinv & Hexit & new & used & -> & Hrest2 & -> & Hnew);
    [|apply choices_inv_nil].
  simpl in Hinv, Hnew |- *.
  destruct (decide (seen ≠ ABCD_set)) as [|Hseen%dec_stable]; [done|].
  destruct (skip_blank _ rest3) as [i4 rest4] eqn:Hskip2.
  apply skip_blank_spec in Hskip2 as (blanks2 & -> & -> & _ & _).
  destruct rest4 as [|ans rest4]; [done|].
  destruct (ANSWER_RE ans) as [letter|] eqn:Hans; [|done].
  intros [= <- <- <-]. simpl.
  assert (length new = 4) as Hlen.
  { destruct Hexit as [Hnil|?]; [|done]. by destruct blanks2. }
  exists blanks, more, used, blanks2, ans, letter.
  rewrite Hrest2, !length_app. split_and!; try done.
  - lia.
  - intros Hfs. subst stem0. rewrite bool_decide_eq_true_2 in Hstem0, Hhead by done.
    simpl in Hstem0. destruct more as [|l more']; [done|].
    exists l, more'. split; [done|]. by apply Hhead.
  - by apply (choices_inv_full new seen).
Qed.

(** Which blocks raise the incomplete-letter-set error: those whose
    choice loop stopped at the end of the input short of four choices. *)
Lemma parse_block_incomplete lines start_idx first_stem rest e :
  parse_block lines start_idx first_stem rest = Raise e →
  err_cause e = IncompleteLetterSet →
  ∃ i1 rest1 chs seen_letters i2,
    collect_choices lines (start_idx + 1) [] ∅ i1 rest1
      = Ok (chs, seen_letters, i2, [])
    ∧ length chs < 4.
Proof.
  unfold parse_block.
  destruct (match (if bool_decide (first_stem = EmptyString) then [] else [first_stem])
            with
            | [] => skip_blank (start_idx + 1) rest
            | _ :: _ => (start_idx + 1, rest)
            end) as [i1 rest1].
  destruct (collect_stem _ _ _ _ _) as [[[stem i2] rest2]|e'] eqn:Hstem.
  2:{ intros [= <-] He. apply collect_stem_raise in Hstem. congruence. }
  destruct stem as [|s0 stem]; [by intros [= <-]|].
  destruct rest2 as [|l2 rest2]; [by intros [= <-]|].
  destruct (collect_choices _ _ _ _ _ _) as [[[[chs seen] i3] rest3]|e'] eqn:Hch.
  2:{ intros [= <-] He. by apply collect_choices_raise in Hch. }
  destruct (decide (seen ≠ ABCD_set)) as [Hseen|].
  - intros _ _. apply collect_choices_spec in Hch as Hspec; [|apply choices_inv_nil].
    destruct Hspec as (Hinv & Hexit & _).
    assert (length chs ≠ 4) as Hne.
    { intros Hlen. by apply (choices_inv_full chs seen) in Hlen as [_ ?]. }
    destruct Hexit as [->|?]; [|done].
    exists i2, (l2 :: rest2), chs, seen, i3. split; [done|].
    destruct Hinv as (_ & _ & _ & ?). lia.
  - destruct (skip_blank _ rest3) as [i4 rest4].
    destruct rest4 as [|ans rest4]; [by intros [= <-]|].
    destruct (ANSWER_RE ans); [done|by intros [= <-]].
Qed.

(** ** The scan *)

Lemma parse_block_shorter lines i first rest q i' rest' :
  parse_block lines i first rest = Ok (q, i', rest') →
  ∃ body ans,
    rest = body ++ ans :: rest' ∧ is_Some (ANSWER_RE ans)
    ∧ i' = i + length (first :: body ++ [ans]).
Proof.
  intros (blanks & more & used & blanks2 & ans & letter & -> & -> & _ & _ & _ & _
          & _ & _ & Hans & _)%parse_block_spec.
  exists (blanks ++ more ++ used ++ blanks2), ans.
  split_and!; [by rewrite <-!app_assoc|by rewrite Hans|].
  simpl. rewrite !length_app. simpl. lia.
Qed.

(** With as much fuel as there are lines left, the scan ends. *)
Lemma parse_loop_total lines fuel questions discarded i rest :
  length rest ≤ fuel →
  is_Some (parse_loop lines fuel questions discarded i rest).
Proof.
  revert questions discarded i rest.
  induction fuel as [|fuel IH]; intros questions discarded i [|l rest] Hlen;
    simpl in *; try done; try lia.
  destruct (QUESTION_START_RE l) as [first|].
  - destruct (parse_block lines i first rest) as [[[q i'] rest']|e] eqn:Hb; [|done].
    apply parse_block_shorter in Hb as (body & ans & -> & _). apply IH.
    rewrite length_app in Hlen. simpl in Hlen. lia.
  - apply IH. lia.
Qed.

(** More fuel does not change the result. *)
Lemma parse_loop_fuel lines fuel fuel' questions discarded i rest r :
  parse_loop lines fuel questions discarded i rest = Some r → fuel ≤ fuel' →
  parse_loop lines fuel' questions discarded i rest = Some r.
Proof.
  revert fuel' questions discarded i rest.
  induction fuel as [|fuel IH]; intros fuel' questions discarded i [|l rest] Hr Hle;
    simpl in *; try done; try by destruct fuel'.
  destruct fuel' as [|fuel']; [lia|]. simpl.
  destruct (QUESTION_START_RE l) as [first|].
  - destruct (parse_block lines i first rest) as [[[q i'] rest']|e]; [|done].
    apply IH; [done|lia].
  - apply IH; [done|lia].
Qed.

Lemma parse_questions_total lines : is_Some (parse_questions lines).
Proof. by apply parse_loop_total. Qed.

(** A successful scan lays the lines out in discarded lines and blocks. *)
Lemma parse_loop_layout lines fuel questions discarded i rest qs d :
  parse_loop lines fuel questions discarded i rest = Some (Ok (qs, d)) →
  ∃ blocks d',
    layout lines i rest blocks d' ∧ qs = questions ++ blocks.*1
    ∧ d = discarded + d'.
Proof.
  revert questions discarded i rest.
  induction fuel as [|fuel IH]; intros questions discarded i [|l rest];
    simpl; try done.
  - intros [= <- <-]. exists [], 0. rewrite app_nil_r, Nat.add_0_r.
    split_and!; [constructor|done..].
  - intros [= <- <-]. exists [], 0. rewrite app_nil_r, Nat.add_0_r.
    split_and!; [constructor|done..].
  - destruct (QUESTION_START_RE l) as [first|] eqn:Hq.
    + destruct (parse_block lines i first rest) as [[[q i'] rest']|e] eqn:Hb; [|done].
      apply parse_block_shorter in Hb as Hs.
      destruct Hs as (body & ans & -> & Hans & ->).
      intros (blocks & d' & Hl & -> & ->)%IH.
      exists ((q, l :: body ++ [ans]) :: blocks), d'.
      split_and!; [|by rewrite <-app_assoc|done].
      by eapply layout_block.
    + intros (blocks & d' & Hl & -> & ->)%IH. exists blocks, (S d').
      split_and!; [by constructor|done|lia].
Qed.

(** Every line is a discarded line or a line of exactly one block. *)
Lemma layout_count lines i rest blocks d :
  layout lines i rest blocks d →
  d + sum_list (length <$> blocks.*2) = length rest.
Proof.
  induction 1 as [|i l rest blocks d _ _ IH|i l first body ans rest q blocks d _ _ _ _ IH].
  - done.
  - simpl. by f_equal.
  - rewrite !fmap_cons. cbn [sum_list snd length]. rewrite !length_app.
    cbn [length]. rewrite <-IH. unfold id. lia.
Qed.

(** What a validated block gives: the postcondition of the parser on one
    question. *)
Lemma parse_block_question lines i l first rest q i' rest' :
  QUESTION_START_RE l = Some first →
  parse_block lines i first rest = Ok (q, i', rest') →
  stem_ok (stem_lines q) ∧ well_formed q
  ∧ Forall (λ c, lstrip c.2 = c.2) (choices q)
  ∧ (Forall one_line (l :: rest) →
       Forall one_line (stem_lines q) ∧ Forall (λ c, one_line c.2) (choices q)).
Proof.
  intros Hl (blanks & more & used & blanks2 & ans & letter & -> & _ & Hstem & _
             & Hfirst & Hmore & Hperm & Hch & Hans & Hletter & _)%parse_block_spec.
  split_and!.
  - rewrite Hstem. case_bool_decide as Hf.
    + destruct (Hfirst Hf) as (l0 & more' & -> & Hl0). exists l0, more'.
      split_and!; [done..|]. by apply Forall_cons in Hmore as [_ ?].
    + exists first, more. split_and!; [done| |done].
      by eapply QUESTION_START_RE_not_blank.
  - split_and!.
    + apply Permutation_length in Hperm. by rewrite length_fmap in Hperm.
    + done.
    + rewrite Hletter. by eapply ANSWER_RE_Some.
  - eapply Forall_impl; [exact Hch|]. intros [letter' text] (l' & _ & Hl').
    by apply CHOICE_RE_Some in Hl' as (_ & ? & _).
  - intros [Hone Hrest]%Forall_cons.
    apply Forall_app in Hrest as [_ Hrest].
    apply Forall_app in Hrest as [Hmore1 Hrest].
    apply Forall_app in Hrest as [Hused _].
    split.
    + rewrite Hstem. apply Forall_app. split; [|done].
      case_bool_decide; constructor; [|done].
      by eapply QUESTION_START_RE_one_line.
    + eapply Forall_impl; [exact Hch|]. intros [letter' text] (l' & Hin & Hl').
      apply CHOICE_RE_Some in Hl' as (_ & _ & Hone'). apply Hone'.
      by eapply Forall_forall in Hused.
Qed.

(** A property of every validated block holds of every question of the
    layout. *)
Lemma layout_Forall (P : Question → Prop) lines i rest blocks d :
  (∀ i l first rest' q i' rest'',
     l :: rest' `suffix_of` rest → QUESTION_START_RE l = Some first →
     parse_block lines i first rest' = Ok (q, i', rest'') → P q) →
  layout lines i rest blocks d → Forall P blocks.*1.
Proof.
  intros HP Hl. induction Hl
    as [|i l rest blocks d _ _ IH|i l first body ans rest q blocks d Hq _ Hb _ IH].
  - constructor.
  - apply IH. intros ??????? Hs. apply HP. by apply suffix_cons_r.
  - rewrite fmap_cons. constructor.
    + by eapply (HP i l first).
    + apply IH. intros ??????? Hs. apply HP.
      etrans; [exact Hs|]. apply suffix_cons_r.
      exists (body ++ [ans]). by rewrite <-app_assoc.
Qed.

Lemma parse_questions_layout lines qs d :
  parse_questions lines = Some (Ok (qs, d)) →
  ∃ blocks, layout lines 0 lines blocks d ∧ blocks.*1 = qs.
Proof.
  intros (blocks & d' & Hl & -> & ->)%parse_loop_layout. by exists blocks.
Qed.

(** The postcondition of the parser. *)
Lemma parse_questions_post lines qs d :
  parse_questions lines = Some (Ok (qs, d)) →
  Forall (λ q, stem_ok (stem_lines q) ∧ well_formed q
               ∧ Forall (λ c, lstrip c.2 = c.2) (choices q)
               ∧ (Forall one_line lines →
                    Forall one_line (stem_lines q)
                    ∧ Forall (λ c, one_line c.2) (choices q))) qs.
Proof.
  intros (blocks & Hl & <-)%parse_questions_layout.
  eapply layout_Forall; [|exact Hl].
  intros i l first rest' q i' rest'' [pre Hs] Hq Hb.
  destruct (parse_block_question _ _ _ _ _ _ _ _ Hq Hb) as (? & ? & ? & Hone).
  split_and!; [done..|]. intros Hlines. apply Hone.
  rewrite Hs in Hlines. by apply Forall_app in Hlines as [_ ?].
Qed.

(** ** The choice loop and the letter set *)

(** C9: when the loop that collects the choices of a block ends with four
    choices, the set of their letters is A, B, C, D; so the check after the
    loop fails only when the loop ended at the end of the input with fewer
    than four choices. *)
Theorem choice_loop_exit lines start_line_no i rest chs seen_letters i' rest' :
  collect_choices lines start_line_no [] ∅ i rest = Ok (chs, seen_letters, i', rest') →
  (length chs = 4 → seen_letters = ABCD_set)
  ∧ (seen_letters ≠ ABCD_set → rest' = [] ∧ length chs < 4).
Proof.
  intros (Hinv & Hexit & _)%collect_choices_spec; [|apply choices_inv_nil].
  assert (length chs = 4 → seen_letters = ABCD_set) as Hfull.
  { intros Hlen. by apply (choices_inv_full chs seen_letters) in Hlen as [_ ?]. }
  split; [done|]. intros Hne.
  destruct Hexit as [->|Hlen]; [|by apply Hfull in Hlen].
  split; [done|]. destruct Hinv as (_ & _ & _ & Hle).
  destruct (decide (length chs = 4)) as [Hlen|]; [by apply Hfull in Hlen|lia].
Qed.

Lemma choice_loop_exit_witness :
  ∃ chs seen_letters i' rest',
    collect_choices two_blocks 1 [] ∅ 1 (drop 1 two_blocks)
      = Ok (chs, seen_letters, i', rest')
    ∧ (length chs = 4 → seen_letters = ABCD_set)
    ∧ (seen_letters ≠ ABCD_set → rest' = [] ∧ length chs < 4).
Proof.
  eexists _, _, _, _. split; [reflexivity|].
  eapply (choice_loop_exit two_blocks 1 1 (drop 1 two_blocks)). reflexivity.
Defined.

(** The error of the check after the loop, seen from [parse_questions]. *)
Lemma parse_loop_raise lines fuel questions discarded i rest e :
  parse_loop lines fuel questions discarded i rest = Some (Raise e) →
  ∃ i0 first rest0, parse_block lines i0 first rest0 = Raise e.
Proof.
  revert questions discarded i rest.
  induction fuel as [|fuel IH]; intros questions discarded i [|l rest];
    simpl; try done.
  destruct (QUESTION_START_RE l) as [first|]; [|apply IH].
  destruct (parse_block lines i first rest) as [[[q i'] rest']|e'] eqn:Hb;
    [apply IH|].
  intros [= <-]. by exists i, first, rest.
Qed.

Lemma incomplete_letter_set_at_eof lines e :
  parse_questions lines = Some (Raise e) →
  err_cause e = IncompleteLetterSet →
  ∃ start_line_no i rest chs seen_letters i',
    collect_choices lines start_line_no [] ∅ i rest = Ok (chs, seen_letters, i', [])
    ∧ length chs < 4.
Proof.
  intros (i0 & first & rest0 & Hb)%parse_loop_raise Hc.
  destruct (parse_block_incomplete _ _ _ _ _ Hb Hc) as (i1 & rest1 & chs & seen & i2 & ?).
  by exists (i0 + 1), i1, rest1, chs, seen, i2.
Qed.

(** ** The stem *)

(** C10: every question of a successful parse has a stem whose first line
    is not empty and not made of whitespace only: stripped, it is not the
    empty string. *)
Theorem first_stem_line_not_blank lines qs d :
  parse_questions lines = Some (Ok (qs, d)) →
  Forall (λ q, ∃ first others,
            stem_lines q = first :: others
            ∧ first ≠ EmptyString ∧ strip first ≠ EmptyString) qs.
Proof.
  intros Hp%parse_questions_post. eapply Forall_impl; [exact Hp|].
  intros q ((first & others & Hs & Hb & _) & _). exists first, others.
  unfold is_blank in Hb. apply bool_decide_eq_false in Hb.
  split_and!; [done| |done]. by intros ->.
Qed.

Lemma first_stem_line_not_blank_witness :
  ∃ qs d,
    parse_questions indented_stem = Some (Ok (qs, d))
    ∧ Forall (λ q, ∃ first others,
                stem_lines q = first :: others
                ∧ first ≠ EmptyString ∧ strip first ≠ EmptyString) qs.
Proof.
  eexists _, _. split; [reflexivity|].
  apply (first_stem_line_not_blank indented_stem _ 0). reflexivity.
Defined.

(** ** Discarded lines *)

(** C4, as the code behaves: after a successful parse the lines are laid
    out in validated blocks (each from its start line to its Answer line)
    and lines outside every block, and the discarded-line count is the
    number of the latter: the lines that start no question and lie outside
    every block.  Blank lines are among them: a blank line between the
    Answer line of a block and the start line of the next starts no
    question, lies outside every block and is counted. *)
Theorem discarded_lines_outside_blocks lines qs d :
  parse_questions lines = Some (Ok (qs, d)) →
  ∃ blocks,
    layout lines 0 lines blocks d ∧ blocks.*1 = qs
    ∧ d + sum_list (length <$> blocks.*2) = length lines
    ∧ ∀ l, is_blank l = true → QUESTION_START_RE l = None.
Proof.
  intros (blocks & Hl & <-)%parse_questions_layout. exists blocks.
  split_and!; [done|done|by eapply layout_count|apply blank_not_question_start].
Qed.

Lemma discarded_lines_outside_blocks_witness :
  ∃ qs d,
    parse_questions two_blocks = Some (Ok (qs, d))
    ∧ ∃ blocks,
        layout two_blocks 0 two_blocks blocks d ∧ blocks.*1 = qs
        ∧ d + sum_list (length <$> blocks.*2) = length two_blocks
        ∧ ∀ l, is_blank l = true → QUESTION_START_RE l = None.
Proof.
  eexists _, _. split; [reflexivity|].
  apply (discarded_lines_outside_blocks two_blocks). reflexivity.
Defined.

(** C4 as stated fails: [two_blocks] is a block of six lines, one blank
    line and another block of six lines; each block alone parses to one
    question with nothing discarded, and the blank line between them is
    counted as discarded. *)
Lemma blank_between_blocks_is_discarded :
  two_blocks = take 6 two_blocks ++ EmptyString :: drop 7 two_blocks
  ∧ is_blank EmptyString = true
  ∧ (∃ q1, parse_questions (take 6 two_blocks) = Some (Ok ([q1], 0)))
  ∧ (∃ q2, parse_questions (drop 7 two_blocks) = Some (Ok ([q2], 0)))
  ∧ (∃ q1 q2, parse_questions two_blocks = Some (Ok ([q1; q2], 1)))
  ∧ ¬ (∃ qs, parse_questions two_blocks = Some (Ok (qs, 0))).
Proof.
  split_and!; [done|done|by eexists|by eexists|by eexists _, _|].
  intros [qs Hqs]. vm_compute in Hqs. discriminate Hqs.
Qed.

(** ** Rendering, and reading the rendered text back *)

Lemma join_newline_snoc_empty l : join newline (l ++ [EmptyString]) = unlines l.
Proof.
  destruct l as [|s l]; [done|].
  by rewrite join_snoc, <-join_newline_unlines.
Qed.

Lemma splitlines_go_line cur l s :
  one_line l →
  splitlines_go false cur (l +:+ newline +:+ s)
  = (cur +:+ l) :: splitlines_go false EmptyString s.
Proof.
  revert cur. induction l as [|c l IH]; intros cur Hl.
  - by rewrite append_nil_l, append_nil_r.
  - apply one_line_cons in Hl as [Hc Hl]. rewrite append_cons. simpl.
    rewrite Hc, IH by done. by rewrite append_assoc.
Qed.

(** Lines written one per line are read back as they are. *)
Lemma splitlines_unlines l : Forall one_line l → splitlines (unlines l) = l.
Proof.
  unfold splitlines. induction 1 as [|s l Hs _ IH]; [done|].
  simpl. by rewrite splitlines_go_line, IH.
Qed.

(** The lines of a text are lines: what [process_file] passes to the
    parser satisfies [one_line]. *)
Lemma splitlines_go_one_line after_cr cur s :
  one_line cur → Forall one_line (splitlines_go after_cr cur s).
Proof.
  revert after_cr cur. induction s as [|c s IH]; intros after_cr cur Hcur; simpl.
  - case_bool_decide; by repeat constructor.
  - destruct (after_cr && bool_decide (c = LF)); [by apply IH|].
    destruct (is_linebreak c) eqn:Hc.
    + constructor; [done|]. by apply IH.
    + apply IH. apply one_line_app. split; [done|].
      apply one_line_cons. by split.
Qed.

Lemma splitlines_one_line s : Forall one_line (splitlines s).
Proof. by apply splitlines_go_one_line. Qed.

(** The decimal numerals that number the questions. *)
Lemma pretty_N_char_digit x : is_digit (pretty_N_char x) = true.
Proof. unfold pretty_N_char. by repeat case_match. Qed.

Lemma pretty_N_go_digits x s :
  str_forall is_digit s = true → s ≠ EmptyString →
  str_forall is_digit (pretty_N_go x s) = true ∧ pretty_N_go x s ≠ EmptyString.
Proof.
  revert s. induction (N.lt_wf_0 x) as [x _ IH]; intros s Hs Hne.
  destruct (decide (x = 0)%N) as [->|Hx]; [by rewrite pretty_N_go_0|].
  rewrite pretty_N_go_step by lia. apply IH.
  - apply N.div_lt; lia.
  - simpl. by rewrite pretty_N_char_digit.
  - done.
Qed.

Lemma pretty_nat_digits (k : nat) :
  ∃ d ds, pretty k = String d ds ∧ is_digit d = true ∧ str_forall is_digit ds = true.
Proof.
  assert (str_forall is_digit (pretty k) = true ∧ pretty k ≠ EmptyString) as [Hd Hne].
  { unfold pretty, pretty_nat, pretty, pretty_N. case_decide; [done|].
    rewrite pretty_N_go_step by lia. apply pretty_N_go_digits; [|done].
    simpl. by rewrite pretty_N_char_digit. }
  destruct (pretty k) as [|d ds]; [done|]. exists d, ds.
  simpl in Hd. by apply andb_true_iff in Hd as [? ?].
Qed.

Lemma digit_not_linebreak c : is_digit c = true → is_linebreak c = false.
Proof. by destruct c as [[] [] [] [] [] [] [] []]. Qed.

Lemma digit_not_space c : is_digit c = true → is_space c = false.
Proof. by destruct c as [[] [] [] [] [] [] [] []]. Qed.

Lemma digits_one_line s : str_forall is_digit s = true → one_line s.
Proof.
  induction s as [|c s IH]; [done|]. simpl. intros [Hc Hs]%andb_true_iff.
  apply one_line_cons. split; [by apply digit_not_linebreak|by apply IH].
Qed.

Lemma skip_digits_app ds s :
  str_forall is_digit ds = true → skip_digits (ds +:+ s) = skip_digits s.
Proof.
  induction ds as [|c ds IH]; [done|]. simpl. intros [Hc Hs]%andb_true_iff.
  rewrite ?append_cons. simpl. by rewrite Hc, IH.
Qed.

(** How the rendered lines are read by the patterns. *)
Lemma QUESTION_START_RE_rendered (k : nat) first :
  one_line first →
  QUESTION_START_RE (pretty k +:+ ". " +:+ first) = Some (lstrip first).
Proof.
  intros Hone. destruct (pretty_nat_digits k) as (d & ds & -> & Hd & Hds).
  unfold QUESTION_START_RE. rewrite append_cons, lstrip_fixed
    by by apply digit_not_space.
  rewrite Hd, skip_digits_app by done.
  rewrite !append_cons, append_nil_l. simpl.
  apply dot_star_eol_one_line. by apply one_line_lstrip.
Qed.

Lemma ABCD_inv letter :
  letter ∈ ABCD → letter = "A" ∨ letter = "B" ∨ letter = "C" ∨ letter = "D".
Proof. unfold ABCD. rewrite !elem_of_cons, elem_of_nil. tauto. Qed.

Lemma CHOICE_RE_rendered letter text :
  letter ∈ ABCD → lstrip text = text → one_line text →
  CHOICE_RE (letter +:+ ". " +:+ text) = Some (letter, text)
  ∧ is_blank (letter +:+ ". " +:+ text) = false.
Proof.
  intros Hl Ht Hone.
  assert (dot_star_eol (lstrip text) = Some text) as Hd.
  { rewrite Ht. by apply dot_star_eol_one_line. }
  destruct (ABCD_inv _ Hl) as [-> | [-> | [-> | ->]]];
    rewrite !append_cons, !append_nil_l;
    (split; [|by apply is_blank_nonspace]);
    unfold CHOICE_RE; simpl; by rewrite Hd.
Qed.

Lemma ANSWER_RE_rendered letter :
  letter ∈ ABCD →
  ANSWER_RE ("Answer: " +:+ letter) = Some letter ∧ upper letter = letter
  ∧ is_blank ("Answer: " +:+ letter) = false.
Proof. intros Hl. by destruct (ABCD_inv _ Hl) as [-> | [-> | [-> | ->]]]. Qed.

Lemma combined_block_renderable i sq :
  renderable sq → combined_block i sq = Ok (block_lines i sq ++ [EmptyString]).
Proof.
  intros ((first & others & Hs & _) & _). unfold combined_block, block_lines.
  rewrite Hs. by rewrite <-!app_assoc.
Qed.

Lemma combined_out_spec i sqs out :
  Forall renderable sqs →
  combined_out i sqs out
  = Ok (out ++ match sqs with
               | [] => []
               | _ :: _ => text_lines i sqs ++ [EmptyString]
               end).
Proof.
  intros Hr. revert i out. induction Hr as [|sq sqs Hsq Hsqs IH]; intros i out.
  { by rewrite app_nil_r. }
  cbn [combined_out]. rewrite combined_block_renderable, IH by done.
  f_equal. cbn [text_lines]. destruct sqs as [|sq' sqs].
  - by rewrite !app_nil_r.
  - by rewrite <-!app_assoc.
Qed.

(** The combined text of renderable questions is its lines, one per
    line. *)
Lemma format_combined_renderable sqs :
  Forall renderable sqs → format_combined sqs = Ok (unlines (text_lines 1 sqs)).
Proof.
  intros Hr. unfold format_combined. rewrite combined_out_spec by done.
  destruct sqs as [|sq sqs]; [done|]. by rewrite app_nil_l, join_newline_snoc_empty.
Qed.

Lemma block_lines_one_line i sq : renderable sq → Forall one_line (block_lines i sq).
Proof.
  intros ((first & others & Hs & _) & Hone & Hlen & Htexts & Hl).
  unfold block_lines. rewrite Hs in Hone |- *.
  apply Forall_cons in Hone as [Hfirst Hothers].
  repeat (apply Forall_app; split); [| done | |].
  - constructor; [|done]. destruct (pretty_nat_digits i) as (d & ds & -> & Hd & Hds).
    apply one_line_app. split; [|by apply one_line_app].
    apply (digits_one_line (String d ds)). simpl. by rewrite Hd.
  - unfold choice_lines. apply Forall_forall. intros l Hin.
    apply elem_of_lookup_zip_with in Hin as (k & letter & text & -> & Hk & Htext).
    apply one_line_app. split.
    + apply list_elem_of_lookup_2, ABCD_inv in Hk.
      by destruct Hk as [-> | [-> | [-> | ->]]].
    + apply one_line_app. split; [done|].
      by destruct (Forall_lookup_1 _ _ _ _ Htexts Htext) as [_ ?].
  - repeat constructor. apply one_line_app. split; [done|].
    by destruct (ABCD_inv _ Hl) as [-> | [-> | [-> | ->]]].
Qed.

Lemma text_lines_one_line i sqs :
  Forall renderable sqs → Forall one_line (text_lines i sqs).
Proof.
  intros Hr. revert i. induction Hr as [|sq sqs Hsq Hsqs IH]; intros i; [done|].
  cbn [text_lines]. apply Forall_app. split; [by apply block_lines_one_line|].
  destruct sqs; [done|]. constructor; [done|]. apply IH.
Qed.

(** The loops of the parser on rendered lines. *)
Lemma collect_stem_rendered lines start stem i others c tail :
  Forall (λ l, CHOICE_RE l = None ∧ QUESTION_START_RE l = None) others →
  is_Some (CHOICE_RE c) →
  collect_stem lines start stem i (others ++ c :: tail)
  = Ok (stem ++ others, i + length others, c :: tail).
Proof.
  intros Hothers [r Hc]. revert stem i.
  induction Hothers as [|l others [Hl1 Hl2] _ IH]; intros stem i; simpl.
  - by rewrite Hc, app_nil_r, Nat.add_0_r.
  - rewrite Hl1, Hl2, IH, <-app_assoc. do 3 f_equal. lia.
Qed.

Lemma collect_choices_step lines start chs seen_letters i l rest letter text :
  length chs < 4 → is_blank l = false → CHOICE_RE l = Some (letter, text) →
  letter ∉ seen_letters →
  collect_choices lines start chs seen_letters i (l :: rest)
  = collect_choices lines start (chs ++ [(letter, text)])
      ({[letter]} ∪ seen_letters) (S i) rest.
Proof.
  intros Hlt Hb Hc Hfresh. simpl.
  rewrite (proj2 (Nat.ltb_lt _ _) Hlt), Hb, Hc. by rewrite decide_False.
Qed.

Lemma collect_choices_full lines start chs seen_letters i rest :
  length chs = 4 →
  collect_choices lines start chs seen_letters i rest = Ok (chs, seen_letters, i, rest).
Proof. intros Hlen. destruct rest; simpl; [done|]. by rewrite Hlen. Qed.

Lemma rendered_letters_set :
  ({["D"]} ∪ ({["C"]} ∪ ({["B"]} ∪ ({["A"]} ∪ ∅))) : gset string) = ABCD_set.
Proof. unfold ABCD_set. apply set_eq. intros x. set_unfold. tauto. Qed.

Lemma collect_choices_rendered lines start i t0 t1 t2 t3 tail :
  Forall (λ text, lstrip text = text ∧ one_line text) [t0; t1; t2; t3] →
  collect_choices lines start [] ∅ i
    (("A" +:+ ". " +:+ t0) :: ("B" +:+ ". " +:+ t1) :: ("C" +:+ ". " +:+ t2)
     :: ("D" +:+ ". " +:+ t3) :: tail)
  = Ok ([("A", t0); ("B", t1); ("C", t2); ("D", t3)], ABCD_set, i + 4, tail).
Proof.
  intros Ht.
  apply Forall_cons in Ht as [[H0 H0'] Ht]. apply Forall_cons in Ht as [[H1 H1'] Ht].
  apply Forall_cons in Ht as [[H2 H2'] Ht]. apply Forall_cons in Ht as [[H3 H3'] _].
  destruct (CHOICE_RE_rendered "A" t0) as [HcA HbA]; [set_unfold; tauto|done..|].
  destruct (CHOICE_RE_rendered "B" t1) as [HcB HbB]; [set_unfold; tauto|done..|].
  destruct (CHOICE_RE_rendered "C" t2) as [HcC HbC]; [set_unfold; tauto|done..|].
  destruct (CHOICE_RE_rendered "D" t3) as [HcD HbD]; [set_unfold; tauto|done..|].
  rewrite (collect_choices_step _ _ _ _ _ _ _ "A" t0); [|simpl; lia|done..].
  rewrite (collect_choices_step _ _ _ _ _ _ _ "B" t1);
    [|simpl; lia|done|done|set_unfold; intros [?|[]]; done].
  rewrite (collect_choices_step _ _ _ _ _ _ _ "C" t2);
    [|simpl; lia|done|done|set_unfold; intros [?|[?|[]]]; done].
  rewrite (collect_choices_step _ _ _ _ _ _ _ "D" t3);
    [|simpl; lia|done|done|set_unfold; intros [?|[?|[?|[]]]]; done].
  rewrite collect_choices_full by done. rewrite rendered_letters_set.
  do 3 f_equal. lia.
Qed.

(** A rendered block is read back as one question. *)
Lemma parse_block_rendered lines i sq first others tail :
  renderable sq → sq_stem_lines sq = first :: others →
  ∃ q i',
    parse_block lines i (lstrip first)
      (others ++ choice_lines sq
       ++ [EmptyString; "Answer: " +:+ new_answer_letter sq] ++ tail)
    = Ok (q, i', tail)
    ∧ read_back sq q.
Proof.
  intros ((first' & others' & Hs & Hblank & Hothers) & _ & Hlen & Htexts & Hl) Hs'.
  rewrite Hs' in Hs. injection Hs as <- <-.
  destruct (shuffled_choices sq) as [|t0 [|t1 [|t2 [|t3 [|? ?]]]]] eqn:Htx;
    try done.
  destruct (ANSWER_RE_rendered _ Hl) as (Hans & Hup & Hab).
  unfold parse_block, choice_lines. rewrite Htx.
  apply is_blank_false in Hblank.
  rewrite bool_decide_eq_false_2 by done.
  cbn [zip_with ABCD app].
  rewrite collect_stem_rendered;
    [|done|by destruct (CHOICE_RE_rendered "A" t0) as [-> _];
             [set_unfold; tauto|by apply Forall_cons in Htexts as [[? ?] _]..|]].
  cbn [app]. rewrite collect_choices_rendered by done.
  rewrite decide_False by (by intros []).
  cbn [skip_blank]. change (is_blank EmptyString) with true. cbn [skip_blank].
  rewrite Hab, Hans, Hup.
  eexists _, _. split; [reflexivity|]. split; simpl; [by rewrite Hs'|by rewrite Htx].
Qed.

(** The lines of the combined text are read back as the questions that
    were written, one for one. *)
Lemma parse_loop_rendered lines sqs :
  Forall renderable sqs →
  ∀ k fuel questions discarded i,
    length (text_lines k sqs) ≤ fuel →
    ∃ qs d,
      parse_loop lines fuel questions discarded i (text_lines k sqs)
      = Some (Ok (questions ++ qs, d))
      ∧ Forall2 read_back sqs qs.
Proof.
  induction 1 as [|sq sqs Hsq Hsqs IH]; intros k fuel questions discarded i Hfuel.
  { exists [], discarded. rewrite app_nil_r. split; [by destruct fuel|constructor]. }
  pose proof Hsq as ((first & others & Hs & _) & Hone & _).
  rewrite Hs in Hone. apply Forall_cons in Hone as [Hfirst _].
  cbn [text_lines] in *. unfold block_lines in *. rewrite Hs in *.
  set (tail := match sqs with
               | [] => []
               | _ :: _ => EmptyString :: text_lines (S k) sqs
               end) in *.
  rewrite <-!app_assoc in *. cbn [app] in *.
  destruct fuel as [|fuel]; [simpl in Hfuel; lia|].
  cbn [parse_loop]. rewrite QUESTION_START_RE_rendered by done.
  destruct (parse_block_rendered lines i sq first others tail Hsq Hs)
    as (q & i' & Hb & Hq).
  cbn [app] in Hb. rewrite Hb.
  assert (length tail ≤ fuel) as Htail.
  { cbn [length] in Hfuel. rewrite !length_app in Hfuel.
    cbn [length] in Hfuel. lia. }
  subst tail. destruct sqs as [|sq' sqs].
  - exists [q], discarded. split; [by destruct fuel|].
    constructor; [done|constructor].
  - destruct fuel as [|fuel]; [simpl in Htail; lia|].
    cbn [parse_loop]. change (QUESTION_START_RE EmptyString) with (@None string).
    destruct (IH (S k) fuel (questions ++ [q]) (S discarded) (S i'))
      as (qs & d & Hqs & Hall).
    { cbn [length] in Htail. lia. }
    exists (q :: qs), d. split; [|by constructor].
    by rewrite Hqs, <-app_assoc.
Qed.

Lemma Forall2_compose {A B C} (P : A → B → Prop) (Q : B → C → Prop) l k m :
  Forall2 P l k → Forall2 Q k m → Forall2 (λ x z, ∃ y, P x y ∧ Q y z) l m.
Proof.
  intros Hlk. revert m. induction Hlk as [|x y l k Hxy _ IH]; intros m Hkm.
  - inversion Hkm. constructor.
  - inversion Hkm as [|? z ? m' Hyz Hkm']; subst. constructor; [eauto|by apply IH].
Qed.

Section round_trip.
Context {R : Random}.

(** C2, as the code behaves: when the lines of the input are lines (they
    hold no line boundary, as the lines that [process_file] gets from
    [splitlines]) and the parse succeeds, shuffling, rendering the combined
    text and parsing its lines again succeeds, with as many questions; each
    question read back has the stem lines of the original one, the first
    of them without its leading whitespace, and its four choice texts are
    a permutation of the original four. *)
Theorem round_trip (lines : list string) (g : rng_state) qs d :
  Forall one_line lines →
  parse_questions lines = Some (Ok (qs, d)) →
  ∃ shuffled g' text qs' d',
    shuffle_questions qs g = Ok (shuffled, g')
    ∧ format_combined shuffled = Ok text
    ∧ parse_questions (splitlines text) = Some (Ok (qs', d'))
    ∧ length qs' = length qs
    ∧ Forall2 (λ q q',
        stem_lines q' = lstrip_first (stem_lines q)
        ∧ (choices q').*2 ≡ₚ (choices q).*2) qs qs'.
Proof.
  intros Hlines Hparse. apply parse_questions_post in Hparse as Hpost.
  destruct (shuffle_questions_spec qs g) as (shuffled & g' & Hsh & Hall).
  { eapply Forall_impl; [exact Hpost|]. by intros q (_ & ? & _). }
  assert (Forall renderable shuffled) as Hr.
  { apply Forall_forall. intros sq Hin.
    apply list_elem_of_lookup_1 in Hin as [j Hj].
    destruct (Forall2_lookup_r _ _ _ _ _ Hall Hj) as (q & Hq & Hstem & Hperm & Hl).
    destruct (Forall_lookup_1 _ _ _ _ Hpost Hq) as (Hso & Hwf & Hls & Hone).
    destruct (Hone Hlines) as [Hone1 Hone2]. destruct Hwf as (Hlen & _).
    split_and!; [by rewrite Hstem|by rewrite Hstem| | |done].
    - apply Permutation_length in Hperm. by rewrite Hperm, length_fmap.
    - rewrite Hperm. apply Forall_fmap, Forall_forall. intros c Hc. simpl.
      split; [by eapply Forall_forall in Hls|by eapply Forall_forall in Hone2]. }
  set (text := unlines (text_lines 1 shuffled)).
  assert (splitlines text = text_lines 1 shuffled) as Hsplit.
  { apply splitlines_unlines. by apply text_lines_one_line. }
  destruct (parse_loop_rendered (text_lines 1 shuffled) shuffled Hr 1
              (length (text_lines 1 shuffled)) [] 0 0) as (qs' & d' & Hqs' & Hback);
    [done|].
  exists shuffled, g', text, qs', d'.
  assert (Forall2 (λ q q',
            stem_lines q' = lstrip_first (stem_lines q)
            ∧ (choices q').*2 ≡ₚ (choices q).*2) qs qs') as Hrel.
  { eapply Forall2_impl; [exact (Forall2_compose _ _ _ _ _ Hall Hback)|].
    intros q q' (sq & (Hstem & Hperm & _) & Hs' & Hc'). simpl.
    split; [by rewrite Hs', Hstem|by rewrite Hc']. }
  split_and!; [done|by apply format_combined_renderable| |
               |done].
  - unfold parse_questions. by rewrite Hsplit.
  - symmetry. by eapply Forall2_length.
Qed.
End round_trip.

Lemma round_trip_witness :
  ∃ qs d,
    parse_questions indented_stem = Some (Ok (qs, d))
    ∧ ∃ shuffled g' text qs' d',
        shuffle_questions (R := lcg) qs 42%N = Ok (shuffled, g')
        ∧ format_combined shuffled = Ok text
        ∧ parse_questions (splitlines text) = Some (Ok (qs', d'))
        ∧ length qs' = length qs
        ∧ Forall2 (λ q q',
            stem_lines q' = lstrip_first (stem_lines q)
            ∧ (choices q').*2 ≡ₚ (choices q).*2) qs qs'.
Proof.
  eexists _, _. split; [reflexivity|].
  apply (round_trip (R := lcg) indented_stem 42%N _ 0).
  - by repeat constructor.
  - reflexivity.
Defined.

(** C2 as stated fails: in [indented_stem] the start line holds the number
    alone and the stem follows on its own line, indented.  The stem is kept
    with its indentation, rendered after the number, and read back without
    it: the stem lines of the question read back are not those of the
    original question. *)
Lemma indented_stem_not_identical :
  ¬ ∃ qs d shuffled g' text qs' d',
      parse_questions indented_stem = Some (Ok (qs, d))
      ∧ shuffle_questions (R := lcg) qs 42%N = Ok (shuffled, g')
      ∧ format_combined shuffled = Ok text
      ∧ parse_questions (splitlines text) = Some (Ok (qs', d'))
      ∧ length qs' = length qs
      ∧ Forall2 (λ q q',
          stem_lines q' = stem_lines q
          ∧ (choices q').*2 ≡ₚ (choices q).*2) qs qs'.
Proof.
  intros (qs & d & shuffled & g' & text & qs' & d' & Hp & Hs & Hf & Hp' & _ & Hall).
  vm_compute in Hp. injection Hp as <- <-.
  vm_compute in Hs. injection Hs as <- <-.
  vm_compute in Hf. injection Hf as <-.
  vm_compute in Hp'. injection Hp' as <- <-.
  inversion Hall as [|???? [Hstem _] _]; subst. discriminate Hstem.
Qed.

(** Why the lines must be lines: a form feed inside a stem line is kept by
    the parser and written back by the renderer, and [splitlines] then
    cuts the rendered line in two, so the stem is read back as two lines. *)
Lemma line_boundary_in_stem_splits :
  let lines := ["1. Q" +:+ String "012"%char "R";
                "A. x"; "B. y"; "C. z"; "D. w"; "Answer: A"] in
  ¬ Forall one_line lines
  ∧ ∃ q shuffled g' text q' d',
      parse_questions lines = Some (Ok ([q], 0))
      ∧ shuffle_questions (R := lcg) [q] 42%N = Ok (shuffled, g')
      ∧ format_combined shuffled = Ok text
      ∧ parse_questions (splitlines text) = Some (Ok ([q'], d'))
      ∧ stem_lines q = ["Q" +:+ String "012"%char "R"]
      ∧ stem_lines q' = ["Q"; "R"].
Proof.
  split.
  - intros Hl. apply Forall_cons in Hl as [Hl _]. discriminate Hl.
  - by eexists _, _, _, _, _, _.
Qed.

(** * Determinism *)

Section determinism.
Context {R : Random}.

(** On the object [rng] in the state [g], the loop body does what
    [shuffle_question] does from [g], and leaves the object in the state
    that [shuffle_question] returns. *)
Lemma shuffle_question_in_spec q rng (w : world) g :
  objects w !! rng = Some g →
  match shuffle_question q g with
  | Ok (sq, g') =>
      ∃ w', shuffle_question_in q rng w = Some (Ok sq, w')
            ∧ objects w' !! rng = Some g'
  | Raise e => ∃ w', shuffle_question_in q rng w = Some (Raise e, w')
  end.
Proof.
  intros Hg. unfold shuffle_question, shuffle_question_in, rng_shuffle.
  rewrite Hg. destruct (shuffle (choices q) g) as [shuffled g1].
  destruct (list_find _ (choices q)) as [[i c]|]; [|by eexists].
  destruct (list_find _ shuffled) as [[idx c']|]; [|by eexists].
  destruct (ABCD !! idx) as [letter|]; [|by eexists].
  eexists. split; [reflexivity|]. simpl. by simplify_map_eq.
Qed.

Lemma shuffle_questions_in_spec qs rng (w : world) g :
  objects w !! rng = Some g →
  match shuffle_questions qs g with
  | Ok (shuffled, g') =>
      ∃ w', shuffle_questions_in qs rng w = Some (Ok shuffled, w')
            ∧ objects w' !! rng = Some g'
  | Raise e => ∃ w', shuffle_questions_in qs rng w = Some (Raise e, w')
  end.
Proof.
  revert w g. induction qs as [|q qs IH]; intros w g Hg; simpl.
  { by exists w. }
  pose proof (shuffle_question_in_spec q rng w g Hg) as Hq.
  destruct (shuffle_question q g) as [[sq g1]|e].
  2:{ destruct Hq as [w1 ->]. by eexists. }
  destruct Hq as (w1 & -> & Hg1). specialize (IH w1 g1 Hg1).
  destruct (shuffle_questions qs g1) as [[sqs g2]|e].
  - destruct IH as (w2 & -> & Hg2). by exists w2.
  - destruct IH as [w2 ->]. by eexists.
Qed.

(** A run with a seed, in any world, ends, and with the outcome that the
    seed alone decides. *)
Lemma process_file_seeded lines (seed : Z) (w : world) :
  ∃ r w',
    process_file lines (Some seed) w = Some (r, w')
    ∧ process_combined lines seed = Some r.
Proof.
  unfold process_file, new_Random, process_combined, combined_from.
  destruct (parse_questions_total lines) as [[[qs d]|e] ->]; [|by eexists _, _].
  set (rng := fresh (dom (objects w))).
  set (w0 := {| objects := <[rng:=seed_state seed]> (objects w);
                os_entropy := os_entropy w; drawn := drawn w |}).
  pose proof (shuffle_questions_in_spec qs rng w0 (seed_state seed)) as Hsh.
  destruct (shuffle_questions qs (seed_state seed)) as [[shuffled g']|e].
  - destruct Hsh as (w' & -> & _); [subst w0; simpl; by simplify_map_eq|].
    destruct (format_combined shuffled); by eexists _, _.
  - destruct Hsh as [w' ->]; [subst w0; simpl; by simplify_map_eq|].
    by eexists _, _.
Qed.

(** C3: two runs of the pipeline on the same lines, each with a generator
    freshly seeded with the same integer seed, end with the same outcome:
    the same combined text, character for character, or the same error.
    The two runs may start in any two worlds [w1] and [w2]: whatever
    generator objects exist, in whatever state, and whatever the operating
    system would give to an unseeded generator; the second run may start
    in the world that the first one left.  The outcome is that of the
    pipeline as a function of the lines and of the seed,
    [process_combined]. *)
Theorem pipeline_deterministic (lines : list string) (seed : Z) (w1 w2 : world) :
  ∃ r w1' w2',
    process_file lines (Some seed) w1 = Some (r, w1')
    ∧ process_file lines (Some seed) w2 = Some (r, w2')
    ∧ process_combined lines seed = Some r.
Proof.
  destruct (process_file_seeded lines seed w1) as (r1 & w1' & H1 & Hr1).
  destruct (process_file_seeded lines seed w2) as (r2 & w2' & H2 & Hr2).
  rewrite Hr1 in Hr2. injection Hr2 as <-. by exists r1, w1', w2'.
Qed.
End determinism.

(** Without a seed the outcome is not decided by the lines: it changes
    with what the operating system gives to the generator. *)
Lemma unseeded_runs_can_differ :
  ∃ (w1 w2 : world (R := lcg)) r1 r2 w1' w2',
    process_file two_blocks None w1 = Some (r1, w1')
    ∧ process_file two_blocks None w2 = Some (r2, w2')
    ∧ r1 ≠ r2.
Proof.
  exists {| objects := ∅; os_entropy := λ _, 0%Z; drawn := 0 |},
         {| objects := ∅; os_entropy := λ _, 1%Z; drawn := 0 |}.
  eexists _, _, _, _. split_and!; [by vm_compute..|]. by intros [=].
Qed.

(** * Further properties of the parser, the shuffle and the renderers *)

(** ** What the parser returns *)

Lemma NoDup_ABCD : NoDup ABCD.
Proof. apply (bool_decide_unpack _). by vm_compute. Qed.

(** X1: every question returned by a successful parse has exactly four
    choices whose letters are A, B, C, D, each once, in the order of the
    source, and an answer letter that is one of A, B, C, D in upper
    case. *)
Theorem parsed_questions_well_formed lines qs d :
  parse_questions lines = Some (Ok (qs, d)) →
  Forall (λ q, well_formed q ∧ NoDup (choices q).*1) qs.
Proof.
  intros Hp%parse_questions_post. eapply Forall_impl; [exact Hp|].
  intros q (_ & Hwf & _). split; [done|]. destruct Hwf as (_ & Hperm & _).
  rewrite Hperm. apply NoDup_ABCD.
Qed.

Lemma parsed_questions_well_formed_witness :
  ∃ qs d,
    parse_questions two_blocks = Some (Ok (qs, d))
    ∧ Forall (λ q, well_formed q ∧ NoDup (choices q).*1) qs.
Proof.
  eexists _, _. split; [reflexivity|].
  apply (parsed_questions_well_formed two_blocks _ 1). reflexivity.
Defined.

(** X2: in a parsed question no choice text begins with whitespace, and
    no stem line after the first is a choice line or a start line. *)
Theorem parsed_questions_texts lines qs d :
  parse_questions lines = Some (Ok (qs, d)) →
  Forall (λ q,
    Forall (λ c, lstrip c.2 = c.2) (choices q)
    ∧ Forall (λ l, CHOICE_RE l = None ∧ QUESTION_START_RE l = None)
        (drop 1 (stem_lines q))) qs.
Proof.
  intros Hp%parse_questions_post. eapply Forall_impl; [exact Hp|].
  intros q ((first & others & -> & _ & Ho) & _ & Ht & _). by split.
Qed.

Lemma parsed_questions_texts_witness :
  ∃ qs d,
    parse_questions two_blocks = Some (Ok (qs, d))
    ∧ Forall (λ q,
        Forall (λ c, lstrip c.2 = c.2) (choices q)
        ∧ Forall (λ l, CHOICE_RE l = None ∧ QUESTION_START_RE l = None)
            (drop 1 (stem_lines q))) qs.
Proof.
  eexists _, _. split; [reflexivity|].
  apply (parsed_questions_texts two_blocks _ 1). reflexivity.
Defined.

Lemma parse_loop_no_start lines fuel questions discarded i rest :
  Forall (λ l, QUESTION_START_RE l = None) rest → length rest ≤ fuel →
  parse_loop lines fuel questions discarded i rest
  = Some (Ok (questions, discarded + length rest)).
Proof.
  intros Hrest. revert fuel discarded i.
  induction Hrest as [|l rest Hl _ IH]; intros fuel discarded i Hfuel.
  { destruct fuel; simpl; by rewrite Nat.add_0_r. }
  destruct fuel as [|fuel]; [simpl in Hfuel; lia|].
  simpl. rewrite Hl, IH by (simpl in Hfuel; lia). do 3 f_equal. lia.
Qed.

(** X3: an input in which no line is a start line is accepted: no
    question, every line discarded, no error. *)
Theorem no_start_line_all_discarded lines :
  Forall (λ l, QUESTION_START_RE l = None) lines →
  parse_questions lines = Some (Ok ([], length lines)).
Proof. intros Hl. unfold parse_questions. by rewrite parse_loop_no_start. Qed.

Lemma no_start_line_all_discarded_witness :
  parse_questions ["Title"; EmptyString; "A. x"; "Answer: A"]
  = Some (Ok ([], length ["Title"; EmptyString; "A. x"; "Answer: A"])).
Proof.
  apply (no_start_line_all_discarded ["Title"; EmptyString; "A. x"; "Answer: A"]).
  by repeat constructor.
Defined.

(** ** The roles of a line *)

Lemma is_A_to_D_not_digit c : is_A_to_D c = true → is_digit c = false.
Proof. by destruct c as [[] [] [] [] [] [] [] []]. Qed.

Lemma nocase_a_not_digit c : eqb_nocase "a" c = true → is_digit c = false.
Proof. by destruct c as [[] [] [] [] [] [] [] []]. Qed.

(** X4: the three patterns exclude one another: a line has at most one of
    the roles start line, choice line and Answer line, and a blank line has
    none. *)
Theorem line_roles_exclusive l :
  ¬ (is_Some (QUESTION_START_RE l) ∧ is_Some (CHOICE_RE l))
  ∧ ¬ (is_Some (QUESTION_START_RE l) ∧ is_Some (ANSWER_RE l))
  ∧ ¬ (is_Some (CHOICE_RE l) ∧ is_Some (ANSWER_RE l))
  ∧ (is_blank l = true →
       QUESTION_START_RE l = None ∧ CHOICE_RE l = None ∧ ANSWER_RE l = None).
Proof.
  unfold QUESTION_START_RE, CHOICE_RE, ANSWER_RE.
  split_and!.
  - intros [[? Hq] [? Hc]]. destruct (lstrip l) as [|c [|p s]]; try done.
    destruct (is_digit c) eqn:Hd; [|done].
    destruct (decide (p = "."%char)) as [->|Hp];
      [|by destruct p as [[] [] [] [] [] [] [] []], s].
    destruct s as [|w r]; [done|].
    destruct (is_A_to_D c) eqn:Ha; [|done].
    apply is_A_to_D_not_digit in Ha. congruence.
  - intros [[? Hq] [? Ha]].
    destruct (lstrip l) as [|a [|n [|s [|w [|e [|r rest]]]]]]; try done.
    destruct (is_digit a) eqn:Hd; [|done].
    destruct (eqb_nocase "a" a) eqn:Haa; [|done].
    apply nocase_a_not_digit in Haa. congruence.
  - intros [[? Hc] [? Ha]]. destruct (lstrip l) as [|c [|p s]]; try done.
    destruct (decide (p = "."%char)) as [->|Hp];
      [|by destruct p as [[] [] [] [] [] [] [] []], s].
    destruct s as [|s [|w [|e [|r rest]]]]; try done.
    by rewrite andb_false_r in Ha.
  - intros Hb%is_blank_lstrip. by rewrite Hb.
Qed.

(** ** What the shuffle returns, and when it fails *)

Section shuffle_more.
Context {R : Random}.

Lemma shuffle_question_Ok q g sq g' :
  shuffle_question q g = Ok (sq, g') →
  sq_stem_lines sq = stem_lines q
  ∧ shuffled_choices sq ≡ₚ (choices q).*2
  ∧ answer_letter q ∈ (choices q).*1
  ∧ new_answer_letter sq ∈ ABCD
  ∧ ∃ text idx,
      original_text_of q = Some text
      ∧ index_of (new_answer_letter sq) = Some idx
      ∧ shuffled_choices sq !! idx = Some text.
Proof.
  unfold shuffle_question.
  destruct (shuffle (choices q) g) as [shuffled g1] eqn:Hsh.
  destruct (list_find _ (choices q)) as [[i c]|] eqn:Hf; [|done].
  destruct (list_find _ shuffled) as [[idx c']|] eqn:Hf'; [|done].
  destruct (ABCD !! idx) as [letter|] eqn:Hl; [|done].
  intros [= <- <-]. simpl.
  pose proof Hf as (Hi & Hc & _)%list_find_Some.
  apply list_find_Some in Hf' as (Hidx & -> & _).
  pose proof (shuffle_Permutation (choices q) g) as Hp. rewrite Hsh in Hp.
  simpl in Hp. split_and!.
  - done.
  - by rewrite Hp.
  - rewrite <-Hc. apply list_elem_of_fmap. exists c.
    split; [done|by eapply list_elem_of_lookup_2].
  - by eapply list_elem_of_lookup_2.
  - exists c.2, idx. split_and!.
    + unfold original_text_of. by rewrite Hf.
    + by apply index_of_ABCD.
    + by rewrite list_lookup_fmap, Hidx.
Qed.

(** X5: whenever [shuffle_questions] returns, it returns one shuffled
    question per question, in order; each keeps the stem, holds the choice
    texts of its question in some order, and is marked with a letter of
    A..D whose position holds the text of the choice that carried the
    answer letter. *)
Theorem shuffle_questions_Ok questions g shuffled g' :
  shuffle_questions questions g = Ok (shuffled, g') →
  Forall2 (λ q sq,
    sq_stem_lines sq = stem_lines q
    ∧ shuffled_choices sq ≡ₚ (choices q).*2
    ∧ new_answer_letter sq ∈ ABCD
    ∧ ∃ text idx,
        original_text_of q = Some text
        ∧ index_of (new_answer_letter sq) = Some idx
        ∧ shuffled_choices sq !! idx = Some text) questions shuffled.
Proof.
  revert g shuffled. induction questions as [|q qs IH]; intros g shuffled; simpl.
  { intros [= <- <-]. constructor. }
  destruct (shuffle_question q g) as [[sq g1]|] eqn:Hq; [|done].
  destruct (shuffle_questions qs g1) as [[sqs g2]|] eqn:Hqs; [|done].
  intros [= <- <-]. constructor; [|by eapply IH].
  by apply shuffle_question_Ok in Hq as (? & ? & _ & ? & ?).
Qed.

(** X6: [shuffle_questions] returns as soon as every question has at most
    four choices and an answer letter that is the letter of one of them;
    the letters need not be A..D nor distinct. *)
Theorem shuffle_questions_succeeds questions g :
  Forall (λ q, answer_letter q ∈ (choices q).*1 ∧ length (choices q) ≤ 4)
    questions →
  ∃ shuffled g', shuffle_questions questions g = Ok (shuffled, g').
Proof.
  intros Hall. revert g. induction Hall as [|q qs [Hans Hlen] _ IH]; intros g.
  { by exists [], g. }
  assert (∃ sq g1, shuffle_question q g = Ok (sq, g1)) as (sq & g1 & Hq).
  { unfold shuffle_question.
    destruct (shuffle (choices q) g) as [shuffled g1] eqn:Hsh.
    pose proof (shuffle_Permutation (choices q) g) as Hp. rewrite Hsh in Hp.
    simpl in Hp.
    apply list_elem_of_fmap in Hans as (c & Hc & Hin).
    destruct (list_find_elem_of (λ c, c.1 = answer_letter q) (choices q) c)
      as [[i c0] Hf]; [done..|]. rewrite Hf.
    apply list_find_Some in Hf as (Hi & _ & _).
    destruct (list_find_elem_of (λ c', c' = c0) shuffled c0) as [[idx c1] Hf'];
      [rewrite Hp; by eapply list_elem_of_lookup_2|done|]. rewrite Hf'.
    apply list_find_Some in Hf' as (Hidx & _ & _).
    apply lookup_lt_Some in Hidx. rewrite Hp in Hidx.
    destruct (lookup_lt_is_Some_2 ABCD idx) as [letter ->]; [simpl; lia|].
    by eexists _, _. }
  destruct (IH g1) as (sqs & g2 & Hqs).
  exists (sq :: sqs), g2. simpl. by rewrite Hq, Hqs.
Qed.

(** X7: the first question whose answer letter is the letter of none of
    its choices makes [shuffle_questions] raise StopIteration. *)
Theorem shuffle_questions_stop_iteration before q after g shuffled g' :
  shuffle_questions before g = Ok (shuffled, g') →
  answer_letter q ∉ (choices q).*1 →
  shuffle_questions (before ++ q :: after) g = Raise StopIteration.
Proof.
  revert g shuffled g'.
  induction before as [|q0 qs IH]; intros g shuffled g'; simpl.
  - intros _ Hnot. unfold shuffle_question.
    destruct (shuffle (choices q) g) as [sh g1].
    destruct (list_find _ (choices q)) as [[i c]|] eqn:Hf; [|done].
    apply list_find_Some in Hf as (Hi & Hc & _). destruct Hnot.
    rewrite <-Hc. apply list_elem_of_fmap. exists c.
    split; [done|by eapply list_elem_of_lookup_2].
  - destruct (shuffle_question q0 g) as [[sq g1]|]; [|done].
    destruct (shuffle_questions qs g1) as [[sqs g2]|] eqn:Hqs; [|done].
    intros _ Hnot. by rewrite (IH g1 sqs g2).
Qed.
End shuffle_more.

Lemma shuffle_questions_Ok_witness :
  ∃ shuffled g',
    shuffle_questions (R := lcg) [sample_question] 5%N = Ok (shuffled, g')
    ∧ Forall2 (λ q sq,
        sq_stem_lines sq = stem_lines q
        ∧ shuffled_choices sq ≡ₚ (choices q).*2
        ∧ new_answer_letter sq ∈ ABCD
        ∧ ∃ text idx,
            original_text_of q = Some text
            ∧ index_of (new_answer_letter sq) = Some idx
            ∧ shuffled_choices sq !! idx = Some text) [sample_question] shuffled.
Proof.
  eexists _, _. split; [reflexivity|].
  eapply (shuffle_questions_Ok (R := lcg) [sample_question] 5%N). reflexivity.
Defined.

Lemma shuffle_questions_succeeds_witness :
  ∃ shuffled g',
    shuffle_questions (R := lcg) [two_choice_question] 5%N = Ok (shuffled, g').
Proof.
  apply (shuffle_questions_succeeds (R := lcg) [two_choice_question] 5%N).
  constructor; [|constructor]. split; [|simpl; lia].
  apply list_elem_of_In. simpl. auto.
Defined.

Lemma shuffle_questions_stop_iteration_witness :
  shuffle_questions (R := lcg)
    ([sample_question] ++ unanswerable_question :: [sample_question]) 5%N
  = Raise StopIteration.
Proof.
  eapply (shuffle_questions_stop_iteration (R := lcg) [sample_question]
            unanswerable_question [sample_question] 5%N).
  - reflexivity.
  - intros Hin%list_elem_of_In. simpl in Hin. by repeat destruct Hin as [Hin|Hin].
Defined.

(** ** The pipeline fails on malformed input only *)

Lemma combined_out_nonempty_stems i sqs out :
  Forall (λ sq, sq_stem_lines sq ≠ []) sqs → ∃ out', combined_out i sqs out = Ok out'.
Proof.
  intros Hs. revert i out. induction Hs as [|sq sqs Hsq _ IH]; intros i out; simpl.
  { by exists out. }
  unfold combined_block. destruct (sq_stem_lines sq); [done|]. apply IH.
Qed.

Lemma questions_out_nonempty_stems i sqs out :
  Forall (λ sq, sq_stem_lines sq ≠ []) sqs → ∃ out', questions_out i sqs out = Ok out'.
Proof.
  intros Hs. revert i out. induction Hs as [|sq sqs Hsq _ IH]; intros i out; simpl.
  { by exists out. }
  unfold questions_block. destruct (sq_stem_lines sq); [done|]. apply IH.
Qed.

Section pipeline_facts.
Context {R : Random}.

Lemma shuffled_parsed_stems lines qs d g :
  parse_questions lines = Some (Ok (qs, d)) →
  ∃ shuffled g',
    shuffle_questions qs g = Ok (shuffled, g')
    ∧ length shuffled = length qs
    ∧ Forall (λ sq, sq_stem_lines sq ≠ []) shuffled.
Proof.
  intros Hpost%parse_questions_post.
  destruct (shuffle_questions_spec qs g) as (shuffled & g' & Hsh & Hall).
  { eapply Forall_impl; [exact Hpost|]. by intros q (_ & ? & _). }
  exists shuffled, g'. split_and!; [done|symmetry; by eapply Forall2_length|].
  apply Forall_forall. intros sq Hin.
  apply list_elem_of_lookup_1 in Hin as [j Hj].
  destruct (Forall2_lookup_r _ _ _ _ _ Hall Hj) as (q & Hq & Hstem & _).
  destruct (Forall_lookup_1 _ _ _ _ Hpost Hq) as ((first & others & Hs & _) & _).
  by rewrite Hstem, Hs.
Qed.

(** X8: whatever the input lines and the generator, the pipeline ends, in
    combined mode and in split mode, with the texts to write or with the
    ParseError of the parser: the lookups of [shuffle_questions] and the
    indexing of the renderers never fail on what the parser returns. *)
Theorem pipeline_fails_on_parse_errors_only (lines : list string) (g : rng_state) :
  ((∃ text, combined_from lines g = Some (Ok text))
   ∨ (∃ e, parse_questions lines = Some (Raise e)
           ∧ combined_from lines g = Some (Raise (ParseFailed e))))
  ∧ ((∃ texts, split_from lines g = Some (Ok texts))
     ∨ (∃ e, parse_questions lines = Some (Raise e)
             ∧ split_from lines g = Some (Raise (ParseFailed e)))).
Proof.
  unfold combined_from, split_from, format_combined, format_questions_only.
  destruct (parse_questions_total lines) as [[[qs d]|e] Hp]; rewrite Hp;
    [|split; right; by exists e].
  destruct (shuffled_parsed_stems lines qs d g Hp) as (shuffled & g' & -> & _ & Hs).
  destruct (combined_out_nonempty_stems 1 shuffled [] Hs) as [out ->].
  destruct (questions_out_nonempty_stems 1 shuffled [] Hs) as [out' ->].
  split; left; by eexists.
Qed.
End pipeline_facts.

(** ** Parsing is local: more lines after a block, another position *)

Lemma skip_blank_app i rest i' l post b :
  skip_blank i rest = (i', l :: post) →
  skip_blank i (rest ++ b) = (i', l :: post ++ b).
Proof.
  revert i. induction rest as [|x rest IH]; intros i; simpl; [done|].
  destruct (is_blank x); [apply IH|]. by intros [= <- <- <-].
Qed.

Lemma skip_blank_shift i rest k :
  skip_blank (i + k) rest = ((skip_blank i rest).1 + k, (skip_blank i rest).2).
Proof.
  revert i. induction rest as [|x rest IH]; intros i; simpl; [done|].
  destruct (is_blank x); [apply (IH (S i))|done].
Qed.

Lemma collect_stem_app lines lines' start start' stem i rest stem' i' l post b :
  collect_stem lines start stem i rest = Ok (stem', i', l :: post) →
  collect_stem lines' start' stem i (rest ++ b) = Ok (stem', i', l :: post ++ b).
Proof.
  revert stem i. induction rest as [|x rest IH]; intros stem i; simpl; [done|].
  destruct (CHOICE_RE x); [by intros [= <- <- <- <-]|].
  destruct (QUESTION_START_RE x); [done|apply IH].
Qed.

Lemma collect_stem_shift lines lines' start start' stem i rest stem' i' rest' k :
  collect_stem lines start stem i rest = Ok (stem', i', rest') →
  collect_stem lines' start' stem (i + k) rest = Ok (stem', i' + k, rest').
Proof.
  revert stem i. induction rest as [|x rest IH]; intros stem i; simpl.
  { by intros [= <- <- <-]. }
  destruct (CHOICE_RE x); [by intros [= <- <- <-]|].
  destruct (QUESTION_START_RE x); [done|apply (IH _ (S i))].
Qed.

Lemma collect_choices_app lines lines' start start' chs seen_letters i rest
    chs' seen' i' post b :
  collect_choices lines start chs seen_letters i rest = Ok (chs', seen', i', post) →
  length chs' = 4 →
  collect_choices lines' start' chs seen_letters i (rest ++ b)
  = Ok (chs', seen', i', post ++ b).
Proof.
  revert chs seen_letters i.
  induction rest as [|x rest IH]; intros chs seen_letters i; simpl.
  { intros [= <- <- <- <-] Hlen. by apply collect_choices_full. }
  destruct (length chs <? 4); [|by intros [= <- <- <- <-]].
  destruct (is_blank x); [apply IH|].
  destruct (CHOICE_RE x) as [[letter text]|]; [|done].
  destruct (decide (letter ∈ seen_letters)); [done|apply IH].
Qed.

Lemma collect_choices_shift lines lines' start start' chs seen_letters i rest
    chs' seen' i' rest' k :
  collect_choices lines start chs seen_letters i rest = Ok (chs', seen', i', rest') →
  collect_choices lines' start' chs seen_letters (i + k) rest
  = Ok (chs', seen', i' + k, rest').
Proof.
  revert chs seen_letters i.
  induction rest as [|x rest IH]; intros chs seen_letters i; simpl.
  { by intros [= <- <- <- <-]. }
  destruct (length chs <? 4); [|by intros [= <- <- <- <-]].
  destruct (is_blank x); [apply (IH _ _ (S i))|].
  destruct (CHOICE_RE x) as [[letter text]|]; [|done].
  destruct (decide (letter ∈ seen_letters)); [done|apply (IH _ _ (S i))].
Qed.

(** A validated block is validated in the same way at another position,
    in another file, with more lines after it. *)
Lemma parse_block_local lines lines' i first rest q i' post b k :
  parse_block lines i first rest = Ok (q, i', post) →
  parse_block lines' (i + k) first (rest ++ b)
  = Ok (shift_start_line_no k q, i' + k, post ++ b).
Proof.
  unfold parse_block.
  set (stem0 := if bool_decide (first = EmptyString) then [] else [first]).
  replace (i + k + 1) with (i + 1 + k) by lia.
  destruct (match stem0 with
            | [] => skip_blank (i + 1) rest
            | _ :: _ => (i + 1, rest)
            end) as [i1 rest1] eqn:Hskip.
  destruct (collect_stem lines _ stem0 i1 rest1) as [[[stem i2] rest2]|] eqn:Hstem;
    [|done].
  destruct stem as [|s0 stem]; [done|].
  destruct rest2 as [|l2 post2]; [done|].
  assert (∃ l1 post1, rest1 = l1 :: post1) as (l1 & post1 & ->).
  { destruct rest1; [done|by eexists _, _]. }
  assert (match stem0 with
          | [] => skip_blank (i + 1 + k) (rest ++ b)
          | _ :: _ => (i + 1 + k, rest ++ b)
          end = (i1 + k, l1 :: post1 ++ b)) as ->.
  { destruct stem0.
    - rewrite skip_blank_shift. by erewrite skip_blank_app.
    - by injection Hskip as <- ->. }
  pose proof (collect_stem_app _ lines' _ (i + 1 + k) _ _ _ _ _ _ _ b Hstem) as Hstem1.
  pose proof (collect_stem_shift _ lines' _ (i + 1 + k) _ _ _ _ _ _ k Hstem1) as Hstem2.
  cbn [app] in Hstem2. rewrite Hstem2. clear Hstem Hstem1 Hstem2.
  destruct (collect_choices lines _ [] ∅ i2 (l2 :: post2))
    as [[[[chs seen] i3] rest3]|] eqn:Hch; [|done].
  destruct (decide (seen ≠ ABCD_set)) as [|Hseen]; [done|].
  destruct (skip_blank i3 rest3) as [i4 rest4] eqn:Hskip2.
  destruct rest4 as [|ans rest4]; [done|].
  destruct (ANSWER_RE ans) as [letter|] eqn:Hans; [|done].
  intros [= <- <- <-].
  assert (length chs = 4) as Hlen.
  { apply collect_choices_spec in Hch as (_ & [->|?] & _);
      [done|done|apply choices_inv_nil]. }
  pose proof (collect_choices_app _ lines' _ (i + 1 + k) _ _ _ _ _ _ _ _ b Hch Hlen)
    as Hch1.
  pose proof (collect_choices_shift _ lines' _ (i + 1 + k) _ _ _ _ _ _ _ _ k Hch1)
    as Hch2.
  cbn [app] in Hch2. rewrite Hch2. rewrite decide_False by done.
  rewrite skip_blank_shift. erewrite skip_blank_app by done. simpl.
  rewrite Hans. unfold shift_start_line_no. simpl. do 3 f_equal.
Qed.

(** A layout is what the scan computes. *)
Lemma layout_parse_loop lines i rest blocks d :
  layout lines i rest blocks d →
  ∀ fuel questions discarded,
    length rest ≤ fuel →
    parse_loop lines fuel questions discarded i rest
    = Some (Ok (questions ++ blocks.*1, discarded + d)).
Proof.
  induction 1 as [i|i l rest blocks d Hq _ IH
                  |i l first body ans rest q blocks d Hq _ Hb _ IH];
    intros fuel questions discarded Hfuel.
  - rewrite app_nil_r, Nat.add_0_r. by destruct fuel.
  - destruct fuel as [|fuel]; [simpl in Hfuel; lia|]. simpl. rewrite Hq.
    rewrite IH by (simpl in Hfuel; lia). do 3 f_equal. lia.
  - destruct fuel as [|fuel]; [simpl in Hfuel; lia|]. simpl. rewrite Hq, Hb.
    rewrite IH.
    + by rewrite <-app_assoc.
    + simpl in Hfuel. rewrite length_app in Hfuel. simpl in Hfuel. lia.
Qed.

Lemma shift_start_line_no_0 q : shift_start_line_no 0 q = q.
Proof. destruct q. unfold shift_start_line_no. simpl. by rewrite Nat.add_0_r. Qed.

(** A layout moved [k] lines down, into another file, before the lines of
    another layout. *)
Lemma layout_local lines lines' i rest blocks d k rest' blocks' d' :
  layout lines i rest blocks d →
  layout lines' (i + k + length rest) rest' blocks' d' →
  layout lines' (i + k) (rest ++ rest')
    ((prod_map (shift_start_line_no k) id <$> blocks) ++ blocks') (d + d').
Proof.
  intros Hl. revert rest' blocks' d'.
  induction Hl as [i|i l rest blocks d Hq _ IH
                   |i l first body ans rest q blocks d Hq Hans Hb _ IH];
    intros rest' blocks' d' Hl'.
  - simpl in *. by rewrite Nat.add_0_r in Hl'.
  - simpl. constructor; [done|]. apply (IH rest' blocks' d').
    simpl in Hl'. by replace (S i + k + length rest) with (i + k + S (length rest))
      by lia.
  - rewrite fmap_cons. cbn [prod_map fst snd id app].
    rewrite <-(app_assoc body (ans :: rest) rest'). cbn [app].
    eapply layout_block; [done|done| |].
    + pose proof (parse_block_local _ lines' _ _ _ _ _ _ rest' k Hb) as Hb'.
      rewrite <-app_assoc in Hb'. cbn [app] in Hb'. rewrite Hb'.
      do 3 f_equal. lia.
    + replace (i + k + length (l :: body ++ [ans]))
        with (i + length (l :: body ++ [ans]) + k) by lia.
      apply IH.
      replace (i + length (l :: body ++ [ans]) + k + length rest)
        with (i + k + length (l :: body ++ ans :: rest)); [done|].
      cbn [length]. rewrite !length_app. cbn [length]. lia.
Qed.

(** X9: parsing is compositional.  When two inputs are each parsed with
    success, so is the first followed by the second: the questions are
    those of the first, then those of the second with their start line
    numbers moved by the length of the first, and the discarded-line counts
    add up. *)
Theorem parse_questions_app lines1 lines2 qs1 d1 qs2 d2 :
  parse_questions lines1 = Some (Ok (qs1, d1)) →
  parse_questions lines2 = Some (Ok (qs2, d2)) →
  parse_questions (lines1 ++ lines2)
  = Some (Ok (qs1 ++ (shift_start_line_no (length lines1) <$> qs2), d1 + d2)).
Proof.
  intros (blocks1 & Hl1 & <-)%parse_questions_layout
         (blocks2 & Hl2 & <-)%parse_questions_layout.
  pose proof (layout_local lines2 (lines1 ++ lines2) 0 lines2 blocks2 d2
                (length lines1) [] [] 0 Hl2 (layout_end _ _)) as Hl2'.
  rewrite !app_nil_r, Nat.add_0_r in Hl2'. simpl in Hl2'.
  pose proof (layout_local lines1 (lines1 ++ lines2) 0 lines1 blocks1 d1
                0 lines2
                (prod_map (shift_start_line_no (length lines1)) id <$> blocks2)
                d2 Hl1) as Hl.
  simpl in Hl. specialize (Hl Hl2').
  unfold parse_questions.
  rewrite (layout_parse_loop _ _ _ _ _ Hl) by done. simpl.
  do 3 f_equal. rewrite fmap_app, <-!list_fmap_compose. f_equal.
  apply list_fmap_ext. intros j [q b] _. simpl. apply shift_start_line_no_0.
Qed.

Lemma parse_questions_app_witness :
  ∃ qs1 d1 qs2 d2,
    parse_questions (take 6 two_blocks) = Some (Ok (qs1, d1))
    ∧ parse_questions (drop 6 two_blocks) = Some (Ok (qs2, d2))
    ∧ parse_questions (take 6 two_blocks ++ drop 6 two_blocks)
      = Some (Ok (qs1 ++ (shift_start_line_no (length (take 6 two_blocks)) <$> qs2),
                  d1 + d2)).
Proof.
  eexists _, _, _, _. split_and!; [reflexivity|reflexivity|].
  apply (parse_questions_app (take 6 two_blocks) (drop 6 two_blocks)); reflexivity.
Defined.

(** ** How many lines a question takes *)

(** The lines of a validated block: the start line, four choice lines and
    the Answer line at least. *)
Lemma parse_block_min_length lines i first rest q i' rest' :
  parse_block lines i first rest = Ok (q, i', rest') →
  length rest' + 5 ≤ length rest.
Proof.
  intros (blanks & more & used & blanks2 & ans & letter & -> & _ & _ & _ & _ & _
          & Hperm & Hused & _)%parse_block_spec.
  assert (length ABCD ≤ length used) as Hlen.
  { pose (f := λ l, from_option fst EmptyString (CHOICE_RE l)).
    rewrite <-(length_fmap f used). apply submseteq_length.
    apply NoDup_submseteq; [apply NoDup_ABCD|].
    intros letter' Hin. rewrite <-Hperm in Hin.
    apply list_elem_of_fmap in Hin as (c & -> & Hc).
    rewrite Forall_forall in Hused. destruct (Hused c Hc) as (l & Hl & Hre).
    apply list_elem_of_fmap. exists l. split; [|done]. unfold f. by rewrite Hre. }
  rewrite !length_app. simpl in *. lia.
Qed.

Lemma layout_min_length lines i rest blocks d :
  layout lines i rest blocks d → 6 * length blocks + d ≤ length rest.
Proof.
  induction 1 as [i|i l rest blocks d Hq _ IH
                  |i l first body ans rest q blocks d Hq _ Hb _ IH];
    simpl; [lia|lia|].
  apply parse_block_min_length in Hb. simpl in *. lia.
Qed.

(** X10: a successful parse found room for its questions: every question
    takes six lines of the input at least (its start line, four choice
    lines and its Answer line), and the discarded lines are other lines. *)
Theorem six_lines_per_question lines qs d :
  parse_questions lines = Some (Ok (qs, d)) →
  6 * length qs + d ≤ length lines.
Proof.
  intros (blocks & Hl & <-)%parse_questions_layout.
  rewrite length_fmap. by apply layout_min_length in Hl.
Qed.

Lemma six_lines_per_question_witness :
  ∃ qs d,
    parse_questions two_blocks = Some (Ok (qs, d))
    ∧ 6 * length qs + d ≤ length two_blocks.
Proof.
  eexists _, _. split; [reflexivity|].
  apply (six_lines_per_question two_blocks _ 1). reflexivity.
Defined.

(** ** Where a ParseError points *)

Lemma collect_stem_raise_at lines start stem i rest e :
  start ≤ i →
  collect_stem lines start stem i rest = Raise e → raised_at lines start e.
Proof.
  revert stem i. induction rest as [|l rest IH]; intros stem i Hi; simpl; [done|].
  destruct (CHOICE_RE l); [done|].
  destruct (QUESTION_START_RE l); [|apply IH; lia].
  intros [= <-]. split; [done|]. exists (i + 1). split; [lia|done].
Qed.

Lemma collect_choices_raise_at lines start chs seen_letters i rest e :
  start ≤ i → start ≤ length lines →
  collect_choices lines start chs seen_letters i rest = Raise e →
  raised_at lines start e.
Proof.
  intros Hi Hn. revert chs seen_letters i Hi.
  induction rest as [|l rest IH]; intros chs seen_letters i Hi; simpl; [done|].
  destruct (length chs <? 4); [|done].
  destruct (is_blank l); [apply IH; lia|].
  destruct (CHOICE_RE l) as [[letter text]|].
  - destruct (decide (letter ∈ seen_letters)); [|apply IH; lia].
    intros [= <-]. split; [done|]. eexists. split; [|done]. lia.
  - intros [= <-]. split; [done|]. eexists. split; [|done]. lia.
Qed.

Lemma parse_block_raise_at lines start_idx first_stem rest e :
  start_idx < length lines →
  parse_block lines start_idx first_stem rest = Raise e →
  raised_at lines (start_idx + 1) e.
Proof.
  intros Hn. unfold parse_block.
  destruct (match (if bool_decide (first_stem = EmptyString) then [] else [first_stem])
            with
            | [] => skip_blank (start_idx + 1) rest
            | _ :: _ => (start_idx + 1, rest)
            end) as [i1 rest1] eqn:Hskip.
  assert (start_idx + 1 ≤ i1) as Hi1.
  { destruct (if bool_decide _ then _ else _).
    - apply skip_blank_spec in Hskip as (? & _ & -> & _). lia.
    - injection Hskip as <- _. lia. }
  destruct (collect_stem _ _ _ _ _) as [[[stem i2] rest2]|e'] eqn:Hstem.
  2:{ intros [= <-]. by eapply collect_stem_raise_at. }
  apply collect_stem_spec in Hstem as (more & _ & _ & -> & _).
  destruct stem as [|s0 stem].
  { intros [= <-]. split; [done|]. eexists. split; [|done]. lia. }
  destruct rest2 as [|l2 rest2].
  { intros [= <-]. split; [done|]. eexists. split; [|done]. lia. }
  destruct (collect_choices _ _ _ _ _ _) as [[[[chs seen] i3] rest3]|e'] eqn:Hch.
  2:{ intros [= <-]. eapply collect_choices_raise_at; [| |done]; lia. }
  apply collect_choices_spec in Hch as (_ & _ & new & used & _ & _ & -> & _);
    [|apply choices_inv_nil].
  destruct (decide (seen ≠ ABCD_set)).
  { intros [= <-]. split; [done|]. eexists. split; [|done]. lia. }
  destruct (skip_blank _ rest3) as [i4 rest4] eqn:Hskip2.
  apply skip_blank_spec in Hskip2 as (blanks & _ & -> & _).
  destruct rest4 as [|ans rest4].
  { intros [= <-]. split; [done|]. eexists. split; [|done]. lia. }
  destruct (ANSWER_RE ans); [done|].
  intros [= <-]. split; [done|]. eexists. split; [|done]. lia.
Qed.

Lemma parse_loop_raise_at lines fuel questions discarded i rest e :
  rest = drop i lines →
  parse_loop lines fuel questions discarded i rest = Some (Raise e) →
  ∃ i0 l first,
    lines !! i0 = Some l ∧ QUESTION_START_RE l = Some first
    ∧ raised_at lines (i0 + 1) e.
Proof.
  revert questions discarded i rest.
  induction fuel as [|fuel IH]; intros questions discarded i [|l rest] Hrest;
    simpl; try done.
  assert (lines !! i = Some l) as Hl.
  { rewrite <-(Nat.add_0_r i), <-lookup_drop, <-Hrest. done. }
  assert (rest = drop (S i) lines) as Hrest'.
  { replace (S i) with (i + 1) by lia. by rewrite <-drop_drop, <-Hrest. }
  destruct (QUESTION_START_RE l) as [first|] eqn:Hq; [|by apply IH].
  destruct (parse_block lines i first rest) as [[[q i'] rest']|e'] eqn:Hb.
  - apply IH. apply parse_block_shorter in Hb as (body & ans & Hsplit & _ & ->).
    replace (i + length (first :: body ++ [ans]))
      with (S i + length (body ++ [ans])) by (simpl; lia).
    rewrite <-drop_drop, <-Hrest', Hsplit.
    by rewrite (cons_middle ans body rest'), app_assoc, drop_app_length.
  - intros [= <-]. exists i, l, first. split_and!; [done..|].
    apply (parse_block_raise_at lines i first rest); [|done].
    by apply lookup_lt_Some in Hl.
Qed.

(** X11: a ParseError raised by the parser names, as its near-line number,
    the 1-based number of a line of the input that matches
    QUESTION_START_RE (the start line of the malformed block), and its
    snippet is made of that line and of the lines that follow it, one at
    least. *)
Theorem parse_error_location lines e :
  parse_questions lines = Some (Raise e) →
  ∃ l first k,
    0 < err_start_line_no e
    ∧ lines !! (err_start_line_no e - 1) = Some l
    ∧ QUESTION_START_RE l = Some first
    ∧ 0 < k
    ∧ err_snippet e
      = join newline (take k (drop (err_start_line_no e - 1) lines)).
Proof.
  intros (i0 & l & first & Hl & Hq & Hs & end_ & Hend & Hsn)%parse_loop_raise_at;
    [|done].
  apply lookup_lt_Some in Hl as Hn.
  exists l, first, (min (length lines) end_ - i0).
  rewrite Hs, Hsn. unfold snippet.
  replace (i0 + 1 - 1) with i0 by lia. split_and!; [lia|done|done|lia|done].
Qed.

Lemma parse_error_location_witness :
  ∃ e l first k,
    parse_questions three_choices = Some (Raise e)
    ∧ 0 < err_start_line_no e
    ∧ three_choices !! (err_start_line_no e - 1) = Some l
    ∧ QUESTION_START_RE l = Some first
    ∧ 0 < k
    ∧ err_snippet e
      = join newline (take k (drop (err_start_line_no e - 1) three_choices)).
Proof.
  eexists.
  destruct (parse_error_location three_choices _ eq_refl) as (l & first & k & H).
  exists l, first, k. split; [reflexivity|exact H].
Defined.

(** ** Where the questions start *)

Lemma layout_start_lines lines i rest blocks d :
  layout lines i rest blocks d → rest = drop i lines →
  Forall (λ q,
    i < start_line_no q
    ∧ ∃ l first,
        lines !! (start_line_no q - 1) = Some l
        ∧ QUESTION_START_RE l = Some first
        ∧ (first ≠ EmptyString → head (stem_lines q) = Some first)) blocks.*1
  ∧ ∀ j q q',
      blocks.*1 !! j = Some q → blocks.*1 !! S j = Some q' →
      start_line_no q + 6 ≤ start_line_no q'.
Proof.
  induction 1 as [i|i l rest blocks d Hq _ IH
                  |i l first body ans rest q blocks d Hq _ Hb _ IH];
    intros Hrest.
  - split; [constructor|]. by intros j q q' ?.
  - destruct IH as [IH1 IH2].
    { replace (S i) with (i + 1) by lia. by rewrite <-drop_drop, <-Hrest. }
    split; [|done]. eapply Forall_impl; [exact IH1|].
    intros q [? ?]. split; [lia|done].
  - assert (lines !! i = Some l) as Hl.
    { by rewrite <-(Nat.add_0_r i), <-lookup_drop, <-Hrest. }
    destruct IH as [IH1 IH2].
    { rewrite <-drop_drop, <-Hrest.
      by rewrite (cons_middle ans body rest), app_assoc,
        (app_comm_cons (body ++ [ans]) rest l), drop_app_length. }
    pose proof (parse_block_min_length _ _ _ _ _ _ _ Hb) as Hmin.
    rewrite length_app in Hmin. cbn [length] in Hmin.
    apply parse_block_spec in Hb
      as (blanks & more & used & blanks2 & ans' & letter & _ & _ & Hstem & _ & _
          & _ & _ & _ & _ & _ & Hstart).
    rewrite fmap_cons. cbn [fst]. split.
    + constructor.
      * split; [lia|]. exists l, first. rewrite Hstart.
        replace (i + 1 - 1) with i by lia. split_and!; [done..|].
        intros Hne. rewrite Hstem. by rewrite bool_decide_eq_false_2.
      * eapply Forall_impl; [exact IH1|]. intros q0 [Hlt ?]. split; [|done].
        cbn [length] in Hlt. lia.
    + intros [|j] q1 q2 H1 H2.
      * injection H1 as <-. simpl in H2.
        destruct (blocks.*1) as [|q0 qs0] eqn:Hqs; [done|]. injection H2 as ->.
        apply Forall_cons in IH1 as [[Hlt _] _].
        cbn [length] in Hlt. rewrite length_app in Hlt. cbn [length] in Hlt. lia.
      * by apply (IH2 j).
Qed.

(** X12: the start_line_no of every parsed question is the 1-based number
    of a line of the input that matches QUESTION_START_RE; when that line
    holds text after the number, the text is the first stem line of the
    question; and from one question to the next the start line numbers
    grow by six at least. *)
Theorem parsed_start_lines lines qs d :
  parse_questions lines = Some (Ok (qs, d)) →
  Forall (λ q,
    0 < start_line_no q
    ∧ ∃ l first,
        lines !! (start_line_no q - 1) = Some l
        ∧ QUESTION_START_RE l = Some first
        ∧ (first ≠ EmptyString → head (stem_lines q) = Some first)) qs
  ∧ ∀ j q q',
      qs !! j = Some q → qs !! S j = Some q' →
      start_line_no q + 6 ≤ start_line_no q'.
Proof.
  intros (blocks & Hl & <-)%parse_questions_layout.
  by apply layout_start_lines in Hl.
Qed.

Lemma parsed_start_lines_witness :
  ∃ qs d,
    parse_questions two_blocks = Some (Ok (qs, d))
    ∧ Forall (λ q,
        0 < start_line_no q
        ∧ ∃ l first,
            two_blocks !! (start_line_no q - 1) = Some l
            ∧ QUESTION_START_RE l = Some first
            ∧ (first ≠ EmptyString → head (stem_lines q) = Some first)) qs
    ∧ ∀ j q q',
        qs !! j = Some q → qs !! S j = Some q' →
        start_line_no q + 6 ≤ start_line_no q'.
Proof.
  eexists _, _. split; [reflexivity|].
  apply (parsed_start_lines two_blocks _ 1). reflexivity.
Defined.

(** ** Reading the combined text back, exactly *)

(** A rendered block is read back with its texts lettered A to D in the
    order written, and with the letter written on its Answer line. *)
Lemma parse_block_rendered_exact lines i sq first others tail :
  renderable sq → sq_stem_lines sq = first :: others →
  ∃ q i',
    parse_block lines i (lstrip first)
      (others ++ choice_lines sq
       ++ [EmptyString; "Answer: " +:+ new_answer_letter sq] ++ tail)
    = Ok (q, i', tail)
    ∧ stem_lines q = lstrip first :: others
    ∧ choices q = zip ABCD (shuffled_choices sq)
    ∧ answer_letter q = new_answer_letter sq.
Proof.
  intros ((first' & others' & Hs & Hblank & Hothers) & _ & Hlen & Htexts & Hl) Hs'.
  rewrite Hs' in Hs. injection Hs as <- <-.
  destruct (shuffled_choices sq) as [|t0 [|t1 [|t2 [|t3 [|? ?]]]]] eqn:Htx;
    try done.
  destruct (ANSWER_RE_rendered _ Hl) as (Hans & Hup & Hab).
  unfold parse_block, choice_lines. rewrite Htx.
  apply is_blank_false in Hblank.
  rewrite bool_decide_eq_false_2 by done.
  cbn [zip_with ABCD app].
  rewrite collect_stem_rendered;
    [|done|by destruct (CHOICE_RE_rendered "A" t0) as [-> _];
             [set_unfold; tauto|by apply Forall_cons in Htexts as [[? ?] _]..|]].
  cbn [app]. rewrite collect_choices_rendered by done.
  rewrite decide_False by (by intros []).
  cbn [skip_blank]. change (is_blank EmptyString) with true. cbn [skip_blank].
  rewrite Hab, Hans, Hup.
  eexists _, _. split; [reflexivity|]. by split_and!.
Qed.

(** The lines of the combined text are read back as the questions written,
    one for one; the lines discarded are the empty lines between two
    blocks. *)
Lemma parse_loop_rendered_exact lines sqs :
  Forall renderable sqs →
  ∀ k fuel questions discarded i,
    length (text_lines k sqs) ≤ fuel →
    ∃ qs,
      parse_loop lines fuel questions discarded i (text_lines k sqs)
      = Some (Ok (questions ++ qs, discarded + (length sqs - 1)))
      ∧ Forall2 (λ sq q,
          stem_lines q = lstrip_first (sq_stem_lines sq)
          ∧ choices q = zip ABCD (shuffled_choices sq)
          ∧ answer_letter q = new_answer_letter sq) sqs qs.
Proof.
  induction 1 as [|sq sqs Hsq Hsqs IH]; intros k fuel questions discarded i Hfuel.
  { exists []. rewrite app_nil_r, Nat.add_0_r. split; [by destruct fuel|constructor]. }
  pose proof Hsq as ((first & others & Hs & _) & Hone & _).
  rewrite Hs in Hone. apply Forall_cons in Hone as [Hfirst _].
  cbn [text_lines] in *. unfold block_lines in *. rewrite Hs in *.
  set (tail := match sqs with
               | [] => []
               | _ :: _ => EmptyString :: text_lines (S k) sqs
               end) in *.
  rewrite <-!app_assoc in *. cbn [app] in *.
  destruct fuel as [|fuel]; [simpl in Hfuel; lia|].
  cbn [parse_loop]. rewrite QUESTION_START_RE_rendered by done.
  destruct (parse_block_rendered_exact lines i sq first others tail Hsq Hs)
    as (q & i' & Hb & Hq1 & Hq2 & Hq3).
  cbn [app] in Hb. rewrite Hb.
  assert (length tail ≤ fuel) as Htail.
  { cbn [length] in Hfuel. rewrite !length_app in Hfuel.
    cbn [length] in Hfuel. lia. }
  assert (stem_lines q = lstrip_first (sq_stem_lines sq)) as Hq1'.
  { by rewrite Hs. }
  subst tail. destruct sqs as [|sq' sqs].
  - exists [q]. cbn [length]. rewrite Nat.add_0_r. split; [by destruct fuel|].
    constructor; [done|constructor].
  - destruct fuel as [|fuel]; [simpl in Htail; lia|].
    cbn [parse_loop]. change (QUESTION_START_RE EmptyString) with (@None string).
    destruct (IH (S k) fuel (questions ++ [q]) (S discarded) (S i'))
      as (qs & Hqs & Hall).
    { cbn [length] in Htail. lia. }
    exists (q :: qs). split; [|by constructor].
    rewrite Hqs, <-app_assoc. cbn [length app]. do 3 f_equal. lia.
Qed.

(** In a question lettered A to D in order, the text of the answer is the
    text at the index of the answer letter. *)
Lemma original_text_of_zip q idx texts text :
  choices q = zip ABCD texts →
  index_of (answer_letter q) = Some idx → texts !! idx = Some text →
  original_text_of q = Some text.
Proof.
  intros Hc Hidx Ht. unfold original_text_of, index_of in *. rewrite Hc.
  destruct (list_find _ ABCD) as [[j x]|] eqn:Hf; [|done].
  injection Hidx as ->. apply list_find_Some in Hf as (Hj & <- & _).
  destruct idx as [|[|[|[|idx]]]]; [| | | |done]; injection Hj as <-;
    destruct texts as [|t0 [|t1 [|t2 [|t3 ?]]]]; try done;
    by injection Ht as <-.
Qed.

Section reparse.
Context {R : Random}.

Lemma shuffle_questions_Forall2 (P : Question → ShuffledQuestion → Prop) :
  (∀ q g sq g', shuffle_question q g = Ok (sq, g') → P q sq) →
  ∀ questions g shuffled g',
    shuffle_questions questions g = Ok (shuffled, g') →
    Forall2 P questions shuffled.
Proof.
  intros HP questions. induction questions as [|q qs IH]; intros g shuffled g'; simpl.
  { intros [= <- <-]. constructor. }
  destruct (shuffle_question q g) as [[sq g1]|] eqn:Hq; [|done].
  destruct (shuffle_questions qs g1) as [[sqs g2]|] eqn:Hqs; [|done].
  intros [= <- <-]. constructor; [by eapply HP|by eapply IH].
Qed.

(** What is shuffled from the parse of lines can be rendered. *)
Lemma shuffled_renderable lines qs d g shuffled g' :
  Forall one_line lines →
  parse_questions lines = Some (Ok (qs, d)) →
  shuffle_questions qs g = Ok (shuffled, g') →
  Forall renderable shuffled.
Proof.
  intros Hlines Hpost%parse_questions_post Hsh.
  pose proof (shuffle_questions_Forall2 _ shuffle_question_Ok _ _ _ _ Hsh) as Hall.
  apply Forall_forall. intros sq Hin.
  apply list_elem_of_lookup_1 in Hin as [j Hj].
  destruct (Forall2_lookup_r _ _ _ _ _ Hall Hj)
    as (q & Hq & Hstem & Hperm & _ & Hl & _).
  destruct (Forall_lookup_1 _ _ _ _ Hpost Hq) as (Hso & Hwf & Hls & Hone).
  destruct (Hone Hlines) as [Hone1 Hone2]. destruct Hwf as (Hlen & _).
  split_and!; [by rewrite Hstem|by rewrite Hstem| | |done].
  - apply Permutation_length in Hperm. by rewrite Hperm, length_fmap.
  - rewrite Hperm. apply Forall_fmap, Forall_forall. intros c Hc. simpl.
    split; [by eapply Forall_forall in Hls|by eapply Forall_forall in Hone2].
Qed.

(** The combined text of what was parsed from lines and shuffled, read
    again. *)
Lemma combined_reparse lines qs d g shuffled g' :
  Forall one_line lines →
  parse_questions lines = Some (Ok (qs, d)) →
  shuffle_questions qs g = Ok (shuffled, g') →
  ∃ text qs',
    format_combined shuffled = Ok text
    ∧ parse_questions (splitlines text) = Some (Ok (qs', length qs - 1))
    ∧ Forall2 (λ sq q,
        stem_lines q = lstrip_first (sq_stem_lines sq)
        ∧ choices q = zip ABCD (shuffled_choices sq)
        ∧ answer_letter q = new_answer_letter sq) shuffled qs'
    ∧ Forall2 (λ q q', original_text_of q' = original_text_of q) qs qs'.
Proof.
  intros Hlines Hp Hsh.
  pose proof (shuffled_renderable _ _ _ _ _ _ Hlines Hp Hsh) as Hr.
  pose proof (shuffle_questions_Forall2 _ shuffle_question_Ok _ _ _ _ Hsh) as Hall.
  destruct (parse_loop_rendered_exact (text_lines 1 shuffled) shuffled Hr 1
              (length (text_lines 1 shuffled)) [] 0 0) as (qs' & Hqs' & Hback);
    [done|].
  exists (unlines (text_lines 1 shuffled)), qs'.
  split_and!; [by apply format_combined_renderable| |done|].
  - unfold parse_questions.
    rewrite splitlines_unlines by (by apply text_lines_one_line).
    rewrite Hqs'. by rewrite (Forall2_length _ _ _ Hall).
  - eapply Forall2_impl; [exact (Forall2_compose _ _ _ _ _ Hall Hback)|].
    intros q q' (sq & (_ & _ & _ & _ & text & idx & Ho & Hi & Ht) & _ & Hc & Ha).
    simpl. rewrite Ho. eapply original_text_of_zip; [done| |done]. by rewrite Ha.
Qed.

(** X13: the text that [process_file] writes in combined mode, read again
    line by line, is parsed with success: it holds as many questions as
    were parsed from the input; the lines discarded are the empty lines
    between two blocks, one less than there are questions; each question
    is read back with its shuffled texts lettered A to D in the order
    written and with the new answer letter; and the text of its correct
    answer is the text of the correct answer of the original question. *)
Theorem output_reparses raw seed text :
  process_text raw seed = Some (Ok text) →
  ∃ qs d shuffled g' qs',
    parse_questions (splitlines raw) = Some (Ok (qs, d))
    ∧ shuffle_questions qs (seed_state seed) = Ok (shuffled, g')
    ∧ parse_questions (splitlines text) = Some (Ok (qs', length qs - 1))
    ∧ Forall2 (λ sq q',
        choices q' = zip ABCD (shuffled_choices sq)
        ∧ answer_letter q' = new_answer_letter sq) shuffled qs'
    ∧ Forall2 (λ q q', original_text_of q' = original_text_of q) qs qs'.
Proof.
  unfold process_text, process_combined, combined_from.
  destruct (parse_questions (splitlines raw)) as [[[qs d]|e]|] eqn:Hp; try done.
  destruct (shuffle_questions qs (seed_state seed)) as [[shuffled g']|] eqn:Hsh;
    [|done].
  destruct (combined_reparse _ _ _ _ _ _ (splitlines_one_line raw) Hp Hsh)
    as (text' & qs' & Hf & Hp' & Hexact & Htext).
  rewrite Hf. intros [= <-]. exists qs, d, shuffled, g', qs'.
  split_and!; [done..| |done].
  eapply Forall2_impl; [exact Hexact|]. by intros sq q' (_ & ? & ?).
Qed.

(** X14: the text that [process_file] writes in combined mode is an input
    that [process_file] accepts, whatever the seed. *)
Theorem output_is_input raw seed text seed' :
  process_text raw seed = Some (Ok text) →
  ∃ text', process_text text seed' = Some (Ok text').
Proof.
  unfold process_text, process_combined, combined_from at 1.
  destruct (parse_questions (splitlines raw)) as [[[qs d]|e]|] eqn:Hp; try done.
  destruct (shuffle_questions qs (seed_state seed)) as [[shuffled g']|] eqn:Hsh;
    [|done].
  destruct (combined_reparse _ _ _ _ _ _ (splitlines_one_line raw) Hp Hsh)
    as (text' & qs' & Hf & Hp' & _).
  rewrite Hf. intros [= <-]. unfold combined_from, format_combined. rewrite Hp'.
  destruct (shuffled_parsed_stems _ _ _ (seed_state seed') Hp')
    as (shuffled' & g'' & -> & _ & Hs).
  destruct (combined_out_nonempty_stems 1 shuffled' [] Hs) as [out ->].
  by eexists.
Qed.
End reparse.

Lemma output_reparses_witness :
  ∃ text qs d shuffled g' qs',
    process_text (R := lcg) (join newline two_blocks) 7 = Some (Ok text)
    ∧ parse_questions (splitlines (join newline two_blocks)) = Some (Ok (qs, d))
    ∧ shuffle_questions (R := lcg) qs (seed_state 7) = Ok (shuffled, g')
    ∧ parse_questions (splitlines text) = Some (Ok (qs', length qs - 1))
    ∧ Forall2 (λ sq q',
        choices q' = zip ABCD (shuffled_choices sq)
        ∧ answer_letter q' = new_answer_letter sq) shuffled qs'
    ∧ Forall2 (λ q q', original_text_of q' = original_text_of q) qs qs'.
Proof.
  eexists.
  destruct (output_reparses (R := lcg) (join newline two_blocks) 7 _ eq_refl)
    as (qs & d & shuffled & g' & qs' & H).
  exists qs, d, shuffled, g', qs'. split; [reflexivity|exact H].
Defined.

Lemma output_is_input_witness :
  ∃ text text',
    process_text (R := lcg) (join newline two_blocks) 7 = Some (Ok text)
    ∧ process_text (R := lcg) text 8 = Some (Ok text').
Proof.
  eexists.
  destruct (output_is_input (R := lcg) (join newline two_blocks) 7 _ 8 eq_refl)
    as [text' H].
  exists text'. split; [reflexivity|exact H].
Defined.

(** ** The questions file of split mode is not an input *)

Lemma start_line_not_answer l :
  is_Some (QUESTION_START_RE l) → ANSWER_RE l = None.
Proof.
  unfold QUESTION_START_RE, ANSWER_RE. intros [? Hq].
  destruct (lstrip l) as [|a [|n [|s [|w [|e [|r rest]]]]]]; try done.
  destruct (is_digit a) eqn:Hd; [|done].
  destruct (eqb_nocase "a" a) eqn:Haa; [|done].
  apply nocase_a_not_digit in Haa. congruence.
Qed.

Lemma questions_out_spec i sqs out :
  Forall renderable sqs →
  questions_out i sqs out
  = Ok (out ++ match sqs with
               | [] => []
               | _ :: _ => questions_lines i sqs ++ [EmptyString]
               end).
Proof.
  intros Hr. revert i out. induction Hr as [|sq sqs Hsq Hsqs IH]; intros i out.
  { by rewrite app_nil_r. }
  destruct Hsq as ((first & others & Hs & _) & _).
  cbn [questions_out questions_lines]. unfold questions_block. rewrite Hs, IH.
  f_equal. destruct sqs as [|sq' sqs].
  - by rewrite !app_nil_r, <-!app_assoc.
  - by rewrite <-!app_assoc.
Qed.

Lemma format_questions_only_renderable sqs :
  Forall renderable sqs →
  format_questions_only sqs = Ok (unlines (questions_lines 1 sqs)).
Proof.
  intros Hr. unfold format_questions_only. rewrite questions_out_spec by done.
  destruct sqs as [|sq sqs]; [done|]. by rewrite app_nil_l, join_newline_snoc_empty.
Qed.

Lemma questions_lines_one_line i sqs :
  Forall renderable sqs → Forall one_line (questions_lines i sqs).
Proof.
  intros Hr. revert i. induction Hr as [|sq sqs Hsq Hsqs IH]; intros i; [done|].
  cbn [questions_lines]. apply Forall_app. split.
  - pose proof (block_lines_one_line i sq Hsq) as Hb. unfold block_lines in Hb.
    destruct (sq_stem_lines sq); [done|].
    rewrite !app_assoc in Hb. apply Forall_app in Hb as [Hb _].
    by rewrite <-!app_assoc in Hb.
  - destruct sqs; [done|]. constructor; [done|]. apply IH.
Qed.

(** A block written without its Answer line is refused: at the end of the
    lines, or at the start line of the next block. *)
Lemma parse_block_questions_only lines i sq first others tail :
  renderable sq → sq_stem_lines sq = first :: others →
  (tail = []
   ∨ ∃ l2 rest2, tail = EmptyString :: l2 :: rest2 ∧ is_Some (QUESTION_START_RE l2)) →
  ∃ e,
    parse_block lines i (lstrip first) (others ++ choice_lines sq ++ tail) = Raise e
    ∧ err_start_line_no e = i + 1
    ∧ err_cause e = match tail with
                    | [] => MissingAnswerBeforeEOF
                    | _ :: _ => ExpectedAnswerLine (i + length others + 7)
                    end.
Proof.
  intros ((first' & others' & Hs & Hblank & Hothers) & _ & Hlen & Htexts & Hl) Hs'.
  rewrite Hs' in Hs. injection Hs as <- <-.
  destruct (shuffled_choices sq) as [|t0 [|t1 [|t2 [|t3 [|? ?]]]]] eqn:Htx;
    try done.
  intros Htail. unfold parse_block, choice_lines. rewrite Htx.
  apply is_blank_false in Hblank.
  rewrite bool_decide_eq_false_2 by done.
  cbn [zip_with ABCD app].
  rewrite collect_stem_rendered;
    [|done|by destruct (CHOICE_RE_rendered "A" t0) as [-> _];
             [set_unfold; tauto|by apply Forall_cons in Htexts as [[? ?] _]..|]].
  cbn [app]. rewrite collect_choices_rendered by done.
  rewrite decide_False by (by intros []).
  destruct Htail as [->|(l2 & rest2 & -> & Hq2)].
  { cbn [skip_blank]. eexists. by split_and!. }
  cbn [skip_blank]. change (is_blank EmptyString) with true. cbn [skip_blank].
  destruct (is_blank l2) eqn:Hb2.
  { apply blank_not_question_start in Hb2. rewrite Hb2 in Hq2. by destruct Hq2. }
  rewrite (start_line_not_answer l2 Hq2).
  eexists. split_and!; [reflexivity|done|]. simpl. f_equal. lia.
Qed.

Section questions_file.
Context {R : Random}.

(** X15: the questions file that [process_file] writes in split mode is
    not an input that the parser accepts, as soon as it holds a question:
    read again, its first block is refused for its missing Answer line, at
    the end of the file when there is one question, at the start line of
    the second block otherwise. *)
Theorem questions_file_rejected raw seed qtext atext q qs d :
  process_split raw seed = Some (Ok (qtext, atext)) →
  parse_questions (splitlines raw) = Some (Ok (q :: qs, d)) →
  ∃ e,
    parse_questions (splitlines qtext) = Some (Raise e)
    ∧ err_start_line_no e = 1
    ∧ err_cause e = match qs with
                    | [] => MissingAnswerBeforeEOF
                    | _ :: _ => ExpectedAnswerLine (length (stem_lines q) + 6)
                    end.
Proof.
  unfold process_split, split_from. intros Hrun Hp. rewrite Hp in Hrun.
  destruct (shuffle_questions (q :: qs) (seed_state seed))
    as [[shuffled g']|] eqn:Hsh; [|done].
  pose proof (shuffled_renderable _ _ _ _ _ _ (splitlines_one_line raw) Hp Hsh) as Hr.
  pose proof (shuffle_questions_Forall2 _ shuffle_question_Ok _ _ _ _ Hsh) as Hall.
  rewrite format_questions_only_renderable in Hrun by done.
  injection Hrun as <- <-.
  rewrite splitlines_unlines by (by apply questions_lines_one_line).
  inversion Hall as [|? sq ? sqs (Hstem & _) Hall']; subst.
  apply Forall_cons in Hr as [Hsq Hsqs].
  pose proof Hsq as ((first & others & Hs & _) & Hone & _).
  rewrite Hs in Hone. apply Forall_cons in Hone as [Hfirst _].
  unfold parse_questions. cbn [questions_lines]. rewrite Hs.
  set (tail := match sqs with
               | [] => []
               | _ :: _ => EmptyString :: questions_lines 2 sqs
               end).
  rewrite <-!app_assoc. cbn [app length parse_loop].
  rewrite QUESTION_START_RE_rendered by done.
  destruct (parse_block_questions_only
              ((pretty 1 +:+ ". " +:+ first) :: others ++ choice_lines sq ++ tail)
              0 sq first others tail Hsq Hs) as (e & -> & Hline & Hcause).
  { subst tail. destruct sqs as [|sq2 sqs]; [by left|right].
    apply Forall_cons in Hsqs as [((first2 & others2 & Hs2 & _) & Hone2 & _) _].
    rewrite Hs2 in Hone2. apply Forall_cons in Hone2 as [Hfirst2 _].
    cbn [questions_lines]. rewrite Hs2. cbn [app].
    eexists _, _. split; [done|]. by rewrite QUESTION_START_RE_rendered. }
  exists e. split_and!; [done|done|]. rewrite Hcause. subst tail.
  rewrite <-Hstem, Hs. inversion Hall'; subst; [done|].
  cbn [length]. f_equal. lia.
Qed.
End questions_file.

Lemma questions_file_rejected_witness :
  ∃ qtext atext q qs d e,
    process_split (R := lcg) (join newline two_blocks) 7 = Some (Ok (qtext, atext))
    ∧ parse_questions (splitlines (join newline two_blocks)) = Some (Ok (q :: qs, d))
    ∧ parse_questions (splitlines qtext) = Some (Raise e)
    ∧ err_start_line_no e = 1
    ∧ err_cause e = match qs with
                    | [] => MissingAnswerBeforeEOF
                    | _ :: _ => ExpectedAnswerLine (length (stem_lines q) + 6)
                    end.
Proof.
  eexists _, _, _, _, _.
  destruct (questions_file_rejected (R := lcg) (join newline two_blocks) 7
              _ _ _ _ _ eq_refl eq_refl) as [e H].
  exists e. split; [reflexivity|split; [reflexivity|exact H]].
Defined.

(** ** The generator is threaded through the questions, in order *)

Section shuffle_order.
Context {R : Random}.

(** X16: shuffling a list of questions is shuffling a first part of it,
    then the rest of it with the generator as the first part left it; an
    error of the first part is the error of the whole. *)
Theorem shuffle_questions_app qs1 qs2 g :
  shuffle_questions (qs1 ++ qs2) g
  = match shuffle_questions qs1 g with
    | Raise e => Raise e
    | Ok (shuffled1, g1) =>
        match shuffle_questions qs2 g1 with
        | Raise e => Raise e
        | Ok (shuffled2, g2) => Ok (shuffled1 ++ shuffled2, g2)
        end
    end.
Proof.
  revert g. induction qs1 as [|q qs1 IH]; intros g; simpl.
  { by destruct (shuffle_questions qs2 g) as [[? ?]|]. }
  destruct (shuffle_question q g) as [[sq g1]|]; [|done]. rewrite IH.
  destruct (shuffle_questions qs1 g1) as [[s1 g2]|]; [|done].
  by destruct (shuffle_questions qs2 g2) as [[? ?]|].
Qed.
End shuffle_order.

(** ** Two malformed blocks *)

(** The scan passes over lines that start no question. *)
Lemma parse_loop_skip lines pre :
  Forall (λ x, QUESTION_START_RE x = None) pre →
  ∀ fuel questions discarded i rest,
    parse_loop lines (length pre + fuel) questions discarded i (pre ++ rest)
    = parse_loop lines fuel questions (discarded + length pre) (i + length pre) rest.
Proof.
  induction 1 as [|x pre Hx _ IH]; intros fuel questions discarded i rest.
  { simpl. by rewrite !Nat.add_0_r. }
  cbn [length app Nat.add parse_loop]. rewrite Hx, IH. f_equal; lia.
Qed.

Lemma start_line_not_choice l :
  is_Some (QUESTION_START_RE l) → CHOICE_RE l = None.
Proof.
  unfold QUESTION_START_RE, CHOICE_RE. intros [? Hq].
  destruct (lstrip l) as [|c [|p s]]; try done.
  destruct (is_digit c) eqn:Hd; [|done].
  destruct (decide (p = "."%char)) as [->|Hp];
    [|by destruct p as [[] [] [] [] [] [] [] []], s].
  destruct s as [|w r]; [by destruct (is_A_to_D c)|].
  destruct (is_A_to_D c) eqn:Ha; [|done].
  apply is_A_to_D_not_digit in Ha. congruence.
Qed.

Lemma choice_line_not_blank l : is_Some (CHOICE_RE l) → is_blank l = false.
Proof.
  intros [? Hc]. destruct (is_blank l) eqn:Hb; [|done].
  apply blank_not_choice in Hb. congruence.
Qed.

Lemma parse_block_duplicate lines i first others c1 c2 letter t1 t2 rest :
  first ≠ EmptyString →
  Forall (λ x, CHOICE_RE x = None ∧ QUESTION_START_RE x = None) others →
  CHOICE_RE c1 = Some (letter, t1) → CHOICE_RE c2 = Some (letter, t2) →
  ∃ e,
    parse_block lines i first (others ++ c1 :: c2 :: rest) = Raise e
    ∧ err_start_line_no e = i + 1
    ∧ err_cause e = DuplicateChoiceLetter letter (i + length others + 3).
Proof.
  intros Hfirst Hothers Hc1 Hc2. unfold parse_block.
  rewrite bool_decide_eq_false_2 by done.
  rewrite collect_stem_rendered by (by rewrite ?Hc1). cbn [app].
  rewrite (collect_choices_step _ _ _ _ _ _ _ letter t1);
    [|simpl; lia|apply choice_line_not_blank; by rewrite Hc1|done
     |apply not_elem_of_empty].
  cbn [collect_choices app length]. change (1 <? 4) with true. cbn match.
  rewrite (choice_line_not_blank c2) by (by rewrite Hc2). rewrite Hc2.
  rewrite decide_True by (apply elem_of_union_l; by apply elem_of_singleton).
  eexists. split_and!; [reflexivity|done|]. simpl. f_equal. lia.
Qed.

(** X17: a block whose first two choice lines carry the same letter is
    refused, wherever it comes after lines that start no question: the
    error names the start line of the block, the letter, and the line of
    the second of the two choice lines. *)
Theorem duplicate_choice_letter_error pre l first others c1 c2 letter t1 t2 rest :
  Forall (λ x, QUESTION_START_RE x = None) pre →
  QUESTION_START_RE l = Some first → first ≠ EmptyString →
  Forall (λ x, CHOICE_RE x = None ∧ QUESTION_START_RE x = None) others →
  CHOICE_RE c1 = Some (letter, t1) → CHOICE_RE c2 = Some (letter, t2) →
  ∃ e,
    parse_questions (pre ++ l :: others ++ c1 :: c2 :: rest) = Some (Raise e)
    ∧ err_start_line_no e = length pre + 1
    ∧ err_cause e
      = DuplicateChoiceLetter letter (length pre + length others + 3).
Proof.
  intros Hpre Hl Hfirst Hothers Hc1 Hc2. unfold parse_questions.
  rewrite length_app, parse_loop_skip by done. cbn [length parse_loop].
  rewrite Hl.
  destruct (parse_block_duplicate (pre ++ l :: others ++ c1 :: c2 :: rest)
              (0 + length pre) first others c1 c2 letter t1 t2 rest)
    as (e & -> & He1 & He2); [done..|].
  exists e. by split_and!.
Qed.

Lemma duplicate_choice_letter_error_witness :
  ∃ e,
    parse_questions (["Quiz"] ++ "1. Q" :: ["more"] ++ "A. x" :: "A. y" :: ["B. z"])
    = Some (Raise e)
    ∧ err_start_line_no e = length ["Quiz"] + 1
    ∧ err_cause e
      = DuplicateChoiceLetter "A" (length ["Quiz"] + length ["more"] + 3).
Proof.
  apply (duplicate_choice_letter_error ["Quiz"] "1. Q" "Q" ["more"]
           "A. x" "A. y" "A" "x" "y" ["B. z"]);
    try reflexivity; try done; by repeat constructor.
Defined.

Lemma collect_stem_next_start lines start stem i others l2 rest :
  Forall (λ x, CHOICE_RE x = None ∧ QUESTION_START_RE x = None) others →
  is_Some (QUESTION_START_RE l2) →
  ∃ e,
    collect_stem lines start stem i (others ++ l2 :: rest) = Raise e
    ∧ err_start_line_no e = start
    ∧ err_cause e = MissingChoicesBeforeNextQuestion.
Proof.
  intros Hothers Hq2. revert stem i.
  induction Hothers as [|x others [Hx1 Hx2] _ IH]; intros stem i; simpl.
  - rewrite (start_line_not_choice l2 Hq2). destruct Hq2 as [? ->].
    eexists. by split_and!.
  - rewrite Hx1, Hx2. apply IH.
Qed.

Lemma skip_blank_before_start i others l2 rest :
  Forall (λ x, CHOICE_RE x = None ∧ QUESTION_START_RE x = None) others →
  is_Some (QUESTION_START_RE l2) →
  ∃ i' others',
    skip_blank i (others ++ l2 :: rest) = (i', others' ++ l2 :: rest)
    ∧ Forall (λ x, CHOICE_RE x = None ∧ QUESTION_START_RE x = None) others'.
Proof.
  intros Hothers Hq2. revert i.
  induction Hothers as [|x others Hx Hothers IH]; intros i; simpl.
  - destruct (is_blank l2) eqn:Hb.
    { apply blank_not_question_start in Hb. rewrite Hb in Hq2. by destruct Hq2. }
    by exists i, [].
  - destruct (is_blank x); [apply IH|]. exists i, (x :: others).
    split; [done|by constructor].
Qed.

(** X18: a block in which the start line of another question comes before
    any choice line is refused, wherever it comes after lines that start no
    question, with or without text on its own start line: the error names
    the start line of the block and the missing choices. *)
Theorem next_start_before_choices_error pre l first others l2 rest :
  Forall (λ x, QUESTION_START_RE x = None) pre →
  QUESTION_START_RE l = Some first →
  Forall (λ x, CHOICE_RE x = None ∧ QUESTION_START_RE x = None) others →
  is_Some (QUESTION_START_RE l2) →
  ∃ e,
    parse_questions (pre ++ l :: others ++ l2 :: rest) = Some (Raise e)
    ∧ err_start_line_no e = length pre + 1
    ∧ err_cause e = MissingChoicesBeforeNextQuestion.
Proof.
  intros Hpre Hl Hothers Hq2. unfold parse_questions.
  rewrite length_app, parse_loop_skip by done. cbn [length parse_loop].
  rewrite Hl. unfold parse_block.
  destruct (bool_decide (first = EmptyString)).
  - destruct (skip_blank_before_start (0 + length pre + 1) others l2 rest
                Hothers Hq2) as (i' & others' & -> & Hothers').
    destruct (collect_stem_next_start (pre ++ l :: others ++ l2 :: rest)
                (0 + length pre + 1) [] i' others' l2 rest Hothers' Hq2)
      as (e & -> & He1 & He2).
    exists e. by split_and!.
  - destruct (collect_stem_next_start (pre ++ l :: others ++ l2 :: rest)
                (0 + length pre + 1) [first] (0 + length pre + 1) others l2 rest
                Hothers Hq2) as (e & -> & He1 & He2).
    exists e. by split_and!.
Qed.

Lemma next_start_before_choices_error_witness :
  ∃ e,
    parse_questions (["Quiz"] ++ "1." :: [EmptyString; "Q"] ++ "2. R" :: ["A. x"])
    = Some (Raise e)
    ∧ err_start_line_no e = length ["Quiz"] + 1
    ∧ err_cause e = MissingChoicesBeforeNextQuestion.
Proof.
  apply (next_start_before_choices_error ["Quiz"] "1." EmptyString
           [EmptyString; "Q"] "2. R" ["A. x"]);
    try reflexivity; try done; by repeat constructor.
Defined.

(** ** A block cut short *)

Lemma skip_blank_blanks i blanks rest :
  Forall (λ x, is_blank x = true) blanks →
  match rest with [] => True | x :: _ => is_blank x = false end →
  skip_blank i (blanks ++ rest) = (i + length blanks, rest).
Proof.
  intros Hblanks Hrest. revert i.
  induction Hblanks as [|x blanks Hx _ IH]; intros i; simpl.
  - rewrite Nat.add_0_r. destruct rest as [|x rest]; [done|]. simpl. by rewrite Hrest.
  - rewrite Hx, IH. f_equal. lia.
Qed.

Lemma collect_stem_eof lines start stem i others :
  Forall (λ x, CHOICE_RE x = None ∧ QUESTION_START_RE x = None) others →
  collect_stem lines start stem i others = Ok (stem ++ others, i + length others, []).
Proof.
  intros Hothers. revert stem i.
  induction Hothers as [|x others [Hx1 Hx2] _ IH]; intros stem i; simpl.
  - by rewrite app_nil_r, Nat.add_0_r.
  - rewrite Hx1, Hx2, IH, <-app_assoc. do 3 f_equal. lia.
Qed.

Lemma skip_blank_to_text i others :
  Forall (λ x, CHOICE_RE x = None ∧ QUESTION_START_RE x = None) others →
  Exists (λ x, is_blank x = false) others →
  ∃ i' x others',
    skip_blank i others = (i', x :: others')
    ∧ Forall (λ x, CHOICE_RE x = None ∧ QUESTION_START_RE x = None) (x :: others').
Proof.
  intros Hothers Hex. revert i.
  induction Hothers as [|x others Hx Hothers IH]; intros i; [by inversion Hex|].
  simpl. destruct (is_blank x) eqn:Hb.
  - apply IH. inversion Hex as [?? Hx'|]; subst; [congruence|done].
  - exists i, x, others. split; [done|by constructor].
Qed.

(** X19: a block whose start line holds the number alone and is followed
    by blank lines only, up to the first choice line or to the end of the
    lines, is refused for its missing stem text (also at the end of the
    lines, where no choice was found either). *)
Theorem missing_stem_text_error pre l blanks rest :
  Forall (λ x, QUESTION_START_RE x = None) pre →
  QUESTION_START_RE l = Some EmptyString →
  Forall (λ x, is_blank x = true) blanks →
  match rest with [] => True | c :: _ => is_Some (CHOICE_RE c) end →
  ∃ e,
    parse_questions (pre ++ l :: blanks ++ rest) = Some (Raise e)
    ∧ err_start_line_no e = length pre + 1
    ∧ err_cause e = MissingStemText.
Proof.
  intros Hpre Hl Hblanks Hrest. unfold parse_questions.
  rewrite length_app, parse_loop_skip by done. cbn [length parse_loop].
  rewrite Hl. unfold parse_block.
  rewrite bool_decide_eq_true_2 by done.
  rewrite skip_blank_blanks;
    [|done|destruct rest; [done|by apply choice_line_not_blank]].
  destruct rest as [|c rest]; simpl.
  - eexists. by split_and!.
  - destruct Hrest as [? ->]. eexists. by split_and!.
Qed.

Lemma missing_stem_text_error_witness :
  ∃ e,
    parse_questions (["Quiz"] ++ "1." :: [EmptyString; " "] ++ ["A. x"; "B. y"])
    = Some (Raise e)
    ∧ err_start_line_no e = length ["Quiz"] + 1
    ∧ err_cause e = MissingStemText.
Proof.
  apply (missing_stem_text_error ["Quiz"] "1." [EmptyString; " "] ["A. x"; "B. y"]);
    try reflexivity; try done; by repeat constructor.
Defined.

(** X20: a block with stem text (on its start line, or on a line after
    it) that runs to the end of the lines without a choice line and
    without another start line is refused for its missing choices at the
    end of the file. *)
Theorem eof_before_choices_error pre l first others :
  Forall (λ x, QUESTION_START_RE x = None) pre →
  QUESTION_START_RE l = Some first →
  Forall (λ x, CHOICE_RE x = None ∧ QUESTION_START_RE x = None) others →
  first ≠ EmptyString ∨ Exists (λ x, is_blank x = false) others →
  ∃ e,
    parse_questions (pre ++ l :: others) = Some (Raise e)
    ∧ err_start_line_no e = length pre + 1
    ∧ err_cause e = EOFBeforeChoices.
Proof.
  intros Hpre Hl Hothers Htext. unfold parse_questions.
  rewrite length_app, parse_loop_skip by done. cbn [length parse_loop].
  rewrite Hl. unfold parse_block.
  destruct (bool_decide (first = EmptyString)) eqn:Hfirst.
  - apply bool_decide_eq_true_1 in Hfirst. destruct Htext as [?|Hex]; [done|].
    destruct (skip_blank_to_text (0 + length pre + 1) others Hothers Hex)
      as (i' & x & others' & -> & Hothers').
    rewrite collect_stem_eof by done. cbn [app]. eexists. by split_and!.
  - rewrite collect_stem_eof by done. cbn [app]. eexists. by split_and!.
Qed.

Lemma eof_before_choices_error_witness :
  ∃ e,
    parse_questions (["Quiz"] ++ "1." :: [EmptyString; "Q"; "more"]) = Some (Raise e)
    ∧ err_start_line_no e = length ["Quiz"] + 1
    ∧ err_cause e = EOFBeforeChoices.
Proof.
  apply (eof_before_choices_error ["Quiz"] "1." EmptyString
           [EmptyString; "Q"; "more"]);
    [by repeat constructor|reflexivity|by repeat constructor|].
  right. apply Exists_cons_tl, Exists_cons_hd. reflexivity.
Defined.
